(** * ros2_openvino_toolkit: the inference request engine

    A shallow embedding of
    [dynamic_vino_lib/inferences/base_inference.hpp] (the frame loader
    [matU8ToBlob], the [Result] value and the batching engine
    [BaseInference]) and of
    [dynamic_vino_lib/models/license_plate_detection_model.hpp], with the
    properties the specification states about them.

    Conventions.
    - C++ integers are [Z] with their conversions written out:
      [size_t] is 64-bit unsigned, [int] is 32-bit two's complement.
    - [float] is IEEE binary32, modelled with the Standard Library's
      [spec_float] at precision 24 and maximal exponent 128.
    - Undefined behaviour, a failed OpenCV debug assertion and a thrown
      exception are all modelled as [None] (a fault): the call produces no
      state. *)

From Stdlib Require Import ZArith List Bool Lia.
From Stdlib Require Import Floats.SpecFloat.
From stdpp Require Import base option list gmap strings.

Open Scope Z_scope.

(** ** Machine integers *)

Definition SIZE_WIDTH : Z := 64.
Definition INT_WIDTH : Z := 32.
Definition INT_MAX : Z := 2 ^ 31 - 1.
Definition INT_MIN : Z := - 2 ^ 31.

(** Conversion to [size_t]: reduction modulo 2^64. *)
Definition to_size_t (z : Z) : Z := z mod 2 ^ SIZE_WIDTH.

(** Conversion to [int]: the value modulo 2^32 read as two's complement. *)
Definition to_int (z : Z) : Z :=
  (z + 2 ^ 31) mod 2 ^ INT_WIDTH - 2 ^ 31.

Definition is_int (z : Z) : Prop := INT_MIN <= z <= INT_MAX.
Definition is_size_t (z : Z) : Prop := 0 <= z < 2 ^ SIZE_WIDTH.

(** [size_t] arithmetic wraps. *)
Definition size_mul (a b : Z) : Z := to_size_t (a * b).
Definition size_add (a b : Z) : Z := to_size_t (a + b).

(** ** binary32 *)

Definition float := spec_float.
Definition FLT_PREC : Z := 24.
Definition FLT_EMAX : Z := 128.

(** Integer to [float] conversion, rounding to nearest even. *)
Definition float_of_int (z : Z) : float :=
  binary_normalize FLT_PREC FLT_EMAX z 0 false.

Definition float_mul (x y : float) : float := SFmul FLT_PREC FLT_EMAX x y.

(** [uchar * float]: the byte is promoted to [int], converted to [float],
    and the product is taken in [float]. *)
Definition uchar_times (px : Z) (scale_factor : float) : float :=
  float_mul (float_of_int px) scale_factor.

(** ** cv::Mat *)

Inductive Depth : Set :=
  | CV_8U | CV_8S | CV_16U | CV_16S | CV_32S | CV_32F | CV_64F.

(** Bytes per channel value ([Mat::elemSize1]). *)
Definition elemSize1 (d : Depth) : Z :=
  match d with
  | CV_8U | CV_8S => 1
  | CV_16U | CV_16S => 2
  | CV_32S | CV_32F => 4
  | CV_64F => 8
  end.

(** A continuous two-dimensional matrix: [data] holds the rows one after
    the other, each pixel as [cn] channel values of [elemSize1] bytes. *)
Record Mat : Type := mkMat {
  rows : Z;
  cols : Z;
  depth : Depth;
  cn : Z;
  data : list Z
}.

Definition elemSize (m : Mat) : Z := cn m * elemSize1 (depth m).
Definition step (m : Mat) : Z := cols m * elemSize m.

(** sizeof(cv::Vec3b) *)
Definition SIZEOF_VEC3B : Z := 3.

(** [m.at<cv::Vec3b>(i0, i1)]. The debug assertions of the two-index
    [Mat::at] ask for [(unsigned)i0 < (unsigned)rows], for
    [(unsigned)(i1 * 3) < (unsigned)(cols * channels())] and for a channel
    value of one byte, as those of [Vec3b] are; on [int] arguments and
    sizes the unsigned comparisons say that the index is not negative and
    below the size. The number of channels is not compared with 3. The
    element is the three bytes at [data + step * i0 + i1 * sizeof(Vec3b)];
    bytes outside the data are a fault. *)
Definition Mat_at_Vec3b (m : Mat) (i0 i1 : Z) : option (list Z) :=
  if bool_decide (0 <= i0 < rows m
                  ∧ 0 <= i1 * 3 < cols m * cn m
                  ∧ elemSize1 (depth m) = 1) then
    let v := take 3 (drop (Z.to_nat (step m * i0 + i1 * SIZEOF_VEC3B)) (data m)) in
    if bool_decide (length v = 3%nat) then Some v else None
  else None.

(** [v[i]] on a [cv::Vec3b]: defined for [0 <= i < 3]. *)
Definition Vec3b_get (v : list Z) (i : Z) : option Z :=
  if bool_decide (0 <= i < 3) then v !! Z.to_nat i else None.

(** ** Loops *)

(** [for (size_t i = 0; i < n; i++) body], the body either faulting or
    giving the next state. *)
Fixpoint for_each {S : Type} (idx : list Z) (body : Z → S → option S)
    (s : S) : option S :=
  match idx with
  | [] => Some s
  | i :: rest =>
      match body i s with
      | Some s' => for_each rest body s'
      | None => None
      end
  end.

Definition upto (n : Z) : list Z := seqZ 0 n.

(** ** The frame loader *)

Section FrameLoader.

(** The element type [T] of the template, with the implicit conversion
    from [float] to [T] ([None] where the conversion is undefined). *)
Variable T : Type.
Variable convert : float → option T.

(** [cv::resize(src, dst, cv::Size(w, h))], an OpenCV primitive: [None]
    when it throws. *)
Variable cv_resize : Mat → Z → Z → option Mat.

(** InferenceEngine::Blob: the dimensions of its tensor descriptor
    (N, C, H, W) and its buffer read as [T*]. *)
Record Blob : Type := mkBlob {
  dims : list Z;
  buffer : list T
}.

(** [blob_data[i] = v] with [i] a [size_t]: a write outside the buffer
    is a fault. *)
Definition blob_store (blob_data : list T) (i : Z) (v : T) : option (list T) :=
  if bool_decide (0 <= i < Z.of_nat (length blob_data)) then
    Some (<[Z.to_nat i := v]> blob_data)
  else None.

(** The comparison of line 52; the [int] sizes of the image are
    converted to [size_t]. *)
Definition size_differs (width height : Z) (orig_image : Mat) : bool :=
  negb (width =? to_size_t (cols orig_image))
  || negb (height =? to_size_t (rows orig_image)).

(** The calls to [cv::resize] a run makes: source, width and height. *)
Definition ResizeCall : Type := (Mat * Z * Z)%type.

(** Lines 51-54: [resized_image] and the resize calls made for it. *)
Definition resized_image (width height : Z) (orig_image : Mat)
    : list ResizeCall * option Mat :=
  if size_differs width height orig_image then
    ([(orig_image, to_int width, to_int height)],
     cv_resize orig_image (to_int width) (to_int height))
  else ([], Some orig_image).

(** Line 55: the product is taken in [size_t] and stored in an [int]. *)
Definition batchOffset (batch_index width height channels : Z) : Z :=
  to_int (size_mul (size_mul (size_mul (to_size_t batch_index) width) height)
                   channels).

(** The index expression of line 60, in [size_t]. *)
Definition blob_index (offset width height c h w : Z) : Z :=
  size_add (size_add (size_add (to_size_t offset)
                               (size_mul (size_mul c width) height))
                     (size_mul h width))
           w.

(** The value of line 61 before its conversion to [T]. *)
Definition pixel_value (image : Mat) (scale_factor : float) (c h w : Z)
    : option float :=
  v ← Mat_at_Vec3b image (to_int h) (to_int w);
  px ← Vec3b_get v (to_int c);
  Some (uchar_times px scale_factor).

(** Lines 60-61: one assignment. *)
Definition store_pixel (image : Mat) (scale_factor : float)
    (offset width height c h w : Z) (blob_data : list T) : option (list T) :=
  x ← pixel_value image scale_factor c h w;
  y ← convert x;
  blob_store blob_data (blob_index offset width height c h w) y.

(** Lines 57-64. *)
Definition fill_blob (image : Mat) (scale_factor : float)
    (offset width height channels : Z) (blob_data : list T) : option (list T) :=
  for_each (upto channels) (λ c,
    for_each (upto height) (λ h,
      for_each (upto width) (λ w,
        store_pixel image scale_factor offset width height c h w)))
    blob_data.

(** [matU8ToBlob<T>(orig_image, blob, scale_factor, batch_index)]: the
    resize calls made and the blob after the call ([None]: a fault). *)
Definition matU8ToBlob (orig_image : Mat) (blob : Blob)
    (scale_factor : float) (batch_index : Z)
    : list ResizeCall * option Blob :=
  match dims blob !! 3%nat, dims blob !! 2%nat, dims blob !! 1%nat with
  | Some width, Some height, Some channels =>
      let '(calls, image) := resized_image width height orig_image in
      (calls,
       img ← image;
       blob_data ← fill_blob img scale_factor
                     (batchOffset batch_index width height channels)
                     width height channels (buffer blob);
       Some (mkBlob (dims blob) blob_data))
  | _, _, _ => ([], None)
  end.

End FrameLoader.

Arguments mkBlob {T} _ _.
Arguments dims {T} _.
Arguments buffer {T} _.
Arguments blob_store {T} _ _ _.
Arguments matU8ToBlob {T} _ _ _ _ _ _.
Arguments fill_blob {T} _ _ _ _ _ _ _ _.
Arguments store_pixel {T} _ _ _ _ _ _ _ _ _ _.

(** ** Element types *)

(** [T = float]: no conversion. *)
Definition convert_float (x : float) : option float := Some x.

(** The integer part of a finite [float], rounded toward zero. *)
Definition float_trunc (x : float) : option Z :=
  match x with
  | S754_zero _ => Some 0
  | S754_finite s m e =>
      let a := if bool_decide (0 <= e) then Z.pos m * 2 ^ e
               else Z.pos m / 2 ^ (- e) in
      Some (if s then - a else a)
  | _ => None
  end.

(** [T = u_int8_t]: the value is truncated toward zero; the conversion is
    undefined when the truncated value is not representable. *)
Definition convert_u8 (x : float) : option Z :=
  z ← float_trunc x;
  if bool_decide (0 <= z <= 255) then Some z else None.

(** ** Images *)

(** What the source indexes as [source_pixel[h][w][c]]: channel [c] of
    the pixel in row [h], column [w] of an interleaved image. *)
Definition source_pixel (m : Mat) (h w c : Z) : option Z :=
  data m !! Z.to_nat ((h * cols m + w) * cn m + c).

(** A 3-channel 8-bit image (CV_8UC3 or CV_8SC3). *)
Definition is_8bit_3channel (m : Mat) : Prop :=
  cn m = 3 ∧ elemSize1 (depth m) = 1.

(** The header of a matrix OpenCV can build: [int] sizes, not negative,
    and the data of a continuous matrix. *)
Definition Mat_ok (m : Mat) : Prop :=
  0 <= rows m <= INT_MAX ∧ 0 <= cols m <= INT_MAX
  ∧ Z.of_nat (length (data m)) = rows m * cols m * elemSize m.

(** ** What a load leaves in a buffer *)

Section Cells.

Context {T : Type}.
Variable convert : float → option T.
Variable image : Mat.
Variable scale_factor : float.
Variables offset width height channels : Z.

(** The value a cell of the blob receives. *)
Definition loaded (c h w : Z) : option T :=
  pixel_value image scale_factor c h w ≫= convert.

(** The cell of channel [c], row [h], column [w]. *)
Definition cell (c h w : Z) : Z :=
  offset + c * width * height + h * width + w.

(** Index [j] is a cell of row [h] of channel [c], and [v] is the value
    loaded for it; likewise for a channel plane and for the whole slot
    of a frame. *)
Definition in_row (c h : Z) (j : Z) (v : T) : Prop :=
  ∃ w, 0 <= w < width ∧ j = cell c h w ∧ loaded c h w = Some v.

Definition in_plane (c : Z) (j : Z) (v : T) : Prop :=
  ∃ h, 0 <= h < height ∧ in_row c h j v.

Definition in_slot (j : Z) (v : T) : Prop :=
  ∃ c, 0 <= c < channels ∧ in_plane c j v.

(** Two buffers of one length. *)
Definition same_length (b1 b2 : list T) : Prop := length b1 = length b2.

(** [run] succeeds on every buffer that contains the segment
    [lo, hi), keeps the length, establishes [P j v] as "index [j] holds
    [v]", and leaves everything outside the segment as it was. *)
Definition writes (run : list T → option (list T)) (lo hi : Z)
    (P : Z → T → Prop) : Prop :=
  ∀ buf, 0 <= lo → hi <= Z.of_nat (length buf) →
    ∃ buf', run buf = Some buf'
      ∧ length buf' = length buf
      ∧ (∀ j v, P j v → buf' !! Z.to_nat j = Some v)
      ∧ (∀ j, 0 <= j → ¬ (lo <= j < hi) →
           buf' !! Z.to_nat j = buf !! Z.to_nat j).

End Cells.

(** ** Results *)

(** cv::Rect *)
Record Rect : Set := mkRect {
  Rect_x : Z;
  Rect_y : Z;
  Rect_width : Z;
  Rect_height : Z
}.

Record Result : Set := mkResult { location_ : Rect }.

(** Modelled from the spec: the constructor [Result::Result(const
    cv::Rect&)] is declared in the header and defined outside it; the spec
    describes a Result as a value holding the rectangle it was created
    with. *)
Definition Result_new (location : Rect) : Result := mkResult location.

Definition getLocation (r : Result) : Rect := location_ r.

(** ** The inference engine *)

Section Inference.

Variable T : Type.
Variable convert : float → option T.
Variable cv_resize : Mat → Z → Z → option Mat.

(** An inference request: its tensor buffers by name. [GetBlob] of a
    name the request does not have throws. *)
Local Abbreviation Request := (gmap string (Blob T)).

(** Modelled from the spec: Engines::Engine ([engines/engine.hpp] is not
    part of the sources), the execution backend whose [getRequest()]
    gives the request handle, which may be null. *)
Record Engine : Type := mkEngine { getRequest : option Request }.

(** The data members of [BaseInference] (lines 176-182); [engine_] is a
    shared pointer, [None] when null. *)
Record BaseInference : Type := mkBaseInference {
  results_ : list Result;
  engine_ : option Engine;
  max_batch_size_ : Z;
  enqueued_frames : Z;
  results_fetched_ : bool
}.

(** The default member initialisers. *)
Definition BaseInference_new : BaseInference :=
  mkBaseInference [] None 1 0 false.

Definition getEngine (st : BaseInference) : option Engine := engine_ st.

(** [engine_->getRequest()], where both pointers are set. *)
Definition request_of (st : BaseInference) : option Request :=
  match engine_ st with
  | Some engine => getRequest engine
  | None => None
  end.

Definition getEnqueuedNum (st : BaseInference) : Z := enqueued_frames st.

Definition setMaxBatchSize (max_batch_size : Z) (st : BaseInference)
    : BaseInference :=
  mkBaseInference (results_ st) (engine_ st) max_batch_size
                  (enqueued_frames st) (results_fetched_ st).

(** [enqueued_frames += 1] on an [int]: overflow is undefined. *)
Definition int_incr (n : Z) : option Z :=
  if bool_decide (n + 1 <= INT_MAX) then Some (n + 1) else None.

(** The blob is reached through shared pointers and written in place:
    the request of the bound engine holds the written blob afterwards. *)
Definition set_blob (st : BaseInference) (input_name : string)
    (blob : Blob T) (req : Request) (count : Z) : BaseInference :=
  mkBaseInference (results_ st)
                  (Some (mkEngine (Some (<[input_name := blob]> req))))
                  (max_batch_size_ st) count (results_fetched_ st).

(** [BaseInference::enqueue<T>] (lines 156-169): [None] is a fault,
    otherwise the returned flag and the engine afterwards. The rectangle
    parameter is unnamed in the source; the warning logged on a refusal
    is not part of the state. *)
Definition enqueue (frame : Mat) (_ : Rect) (scale_factor : float)
    (batch_index : Z) (input_name : string) (st : BaseInference)
    : option (bool * BaseInference) :=
  if bool_decide (enqueued_frames st = max_batch_size_ st) then
    Some (false, st)
  else
    engine ← engine_ st;
    req ← getRequest engine;
    input_blob ← req !! input_name;
    blob ← (matU8ToBlob convert cv_resize frame input_blob
                        scale_factor batch_index).2;
    count ← int_incr (enqueued_frames st);
    Some (true, set_blob st input_name blob req count).

(** Whether some result of the engine carries the rectangle. *)
Definition records_location (st : BaseInference) (loc : Rect) : Prop :=
  ∃ r, r ∈ results_ st ∧ getLocation r = loc.

(** *** The request lifecycle *)

(** The backend's blocking execution ([None]: it reports a failure) and
    the model-specific parsing of its output, both outside the core. *)
Variable execute : Request → option Request.
Variable parse : Request → list Result.

(** Modelled from the spec: the states of the request lifecycle (spec
    4.3), which the header has no member for; the core is the engine
    together with its state. *)
Inductive Phase : Set := Idle | Enqueuing | Submitted | Fetched.

Record Core : Type := mkCore { base : BaseInference; phase : Phase }.

Definition Core_new : Core := mkCore BaseInference_new Idle.

(** What an operation of the lifecycle gives: [Abort] is a fault or a
    precondition violation, after which there is no state to go on
    with; the two errors are returned to the caller with the state, and
    so is [ReturnedFalse], the [false] of an operation that did
    nothing. *)
Inductive Outcome : Type :=
  | Abort
  | QueueFullError (c : Core)
  | ExecutionError (c : Core)
  | ReturnedFalse (c : Core)
  | Ok (c : Core).

(** The arguments of one enqueue call. *)
Record Call : Type := mkCall {
  call_frame : Mat;
  call_loc : Rect;
  call_scale : float;
  call_batch_index : Z;
  call_input : string
}.

Definition enqueue_call (k : Call) (st : BaseInference)
    : option (bool * BaseInference) :=
  enqueue (call_frame k) (call_loc k) (call_scale k)
          (call_batch_index k) (call_input k) st.

(** The states in which the spec allows [enqueue]. *)
Definition open_phase (c : Core) : Prop :=
  phase c = Idle ∨ phase c = Enqueuing.

(** Modelled from the spec: the state discipline of [enqueue] (spec 4.3:
    valid only in Idle or Enqueuing, on success the state is Enqueuing);
    what it does to the engine is the source's [enqueue]. *)
Definition core_enqueue (k : Call) (c : Core) : Outcome :=
  match phase c with
  | Idle | Enqueuing =>
      match enqueue_call k (base c) with
      | None => Abort
      | Some (false, st) => QueueFullError (mkCore st (phase c))
      | Some (true, st) => Ok (mkCore st Enqueuing)
      end
  | _ => Abort
  end.

(** Modelled from the spec: [BaseInference::loadEngine], declared in the
    header and defined outside it (spec 4.4: it attaches a backend to
    the core). *)
Definition loadEngine (engine : option Engine) (st : BaseInference)
    : BaseInference :=
  mkBaseInference (results_ st) engine (max_batch_size_ st)
                  (enqueued_frames st) (results_fetched_ st).

(** Modelled from the spec: rebinding while Enqueuing or Submitted is a
    precondition violation (spec 4.4). *)
Definition core_loadEngine (engine : option Engine) (c : Core) : Outcome :=
  match phase c with
  | Enqueuing | Submitted => Abort
  | _ => Ok (mkCore (loadEngine engine (base c)) (phase c))
  end.

Definition core_setMaxBatchSize (n : Z) (c : Core) : Outcome :=
  Ok (mkCore (setMaxBatchSize n (base c)) (phase c)).

(** Modelled from the spec: [BaseInference::submitRequest], declared in
    the header and defined outside it (spec 4.3: valid only in
    Enqueuing; it fails with ExecutionError if no backend is bound or
    the backend reports a failure, and otherwise the state is
    Submitted). The header declares it as returning [bool], "whether this
    operation is successful", and has no state to test on entry: called
    in another state it returns [false] and does nothing. *)
Definition submitRequest (c : Core) : Outcome :=
  match phase c with
  | Enqueuing =>
      let st := base c in
      match request_of st ≫= execute with
      | None => ExecutionError c
      | Some req =>
          Ok (mkCore (mkBaseInference (results_ st)
                        (Some (mkEngine (Some req)))
                        (max_batch_size_ st) (enqueued_frames st)
                        (results_fetched_ st))
                     Submitted)
      end
  | _ => ReturnedFalse c
  end.

(** Modelled from the spec: [BaseInference::fetchResults], declared in
    the header and defined outside it (spec 4.3: valid only in
    Submitted; it parses the output into the results, resets the
    enqueued count to 0, sets the results-fetched flag, and the state is
    Idle). The header declares it as returning [bool], "whether the
    Inference object fetches a result this time": called in another
    state it fetches nothing, returns [false] and does nothing. *)
Definition fetchResults (c : Core) : Outcome :=
  match phase c with
  | Submitted =>
      let st := base c in
      match request_of st with
      | None => Abort
      | Some req =>
          Ok (mkCore (mkBaseInference (parse req) (engine_ st)
                        (max_batch_size_ st) 0 true)
                     Idle)
      end
  | _ => ReturnedFalse c
  end.

(** Enqueue call after enqueue call, each one accepted. *)
Fixpoint core_enqueue_all (calls : list Call) (c : Core) : option Core :=
  match calls with
  | [] => Some c
  | k :: rest =>
      match core_enqueue k c with
      | Ok c' => core_enqueue_all rest c'
      | _ => None
      end
  end.

(** The operations a caller has on the core. *)
Inductive Op : Type :=
  | OpLoadEngine (engine : option Engine)
  | OpSetMaxBatchSize (n : Z)
  | OpEnqueue (k : Call)
  | OpSubmit
  | OpFetchResults.

Definition core_step (op : Op) (c : Core) : Outcome :=
  match op with
  | OpLoadEngine e => core_loadEngine e c
  | OpSetMaxBatchSize n => core_setMaxBatchSize n c
  | OpEnqueue k => core_enqueue k c
  | OpSubmit => submitRequest c
  | OpFetchResults => fetchResults c
  end.

(** The state an outcome leaves the caller with. *)
Definition state_after (o : Outcome) : option Core :=
  match o with
  | Abort => None
  | QueueFullError c | ExecutionError c | ReturnedFalse c | Ok c => Some c
  end.

(** A sequence of operations, errors returned to the caller included;
    [None] when one of them aborts. *)
Fixpoint core_run (ops : list Op) (c : Core) : option Core :=
  match ops with
  | [] => Some c
  | op :: rest =>
      match state_after (core_step op c) with
      | Some c' => core_run rest c'
      | None => None
      end
  end.

Definition binds_backend (op : Op) : Prop :=
  ∃ e, op = OpLoadEngine (Some e).

(** The shape of a blob: what the success of a load depends on. *)
Definition blob_shape (b : Blob T) : list Z * nat :=
  (dims b, length (buffer b)).

(** A call whose frame the bound backend can take: the named blob is
    there and the conversion into it is defined. *)
Definition loadable (st : BaseInference) (k : Call) : Prop :=
  ∃ req blob,
    request_of st = Some req ∧ req !! call_input k = Some blob
    ∧ is_Some (matU8ToBlob convert cv_resize (call_frame k) blob
                           (call_scale k) (call_batch_index k)).2.

End Inference.

Arguments mkEngine {T} _.
Arguments getRequest {T} _.
Arguments mkBaseInference {T} _ _ _ _ _.
Arguments results_ {T} _.
Arguments engine_ {T} _.
Arguments max_batch_size_ {T} _.
Arguments enqueued_frames {T} _.
Arguments results_fetched_ {T} _.
Arguments BaseInference_new {T}.
Arguments getEnqueuedNum {T} _.
Arguments setMaxBatchSize {T} _ _.
Arguments enqueue {T} _ _ _ _ _ _ _ _.
Arguments records_location {T} _ _.
Arguments mkCore {T} _ _.
Arguments base {T} _.
Arguments phase {T} _.
Arguments Core_new {T}.
Arguments Abort {T}.
Arguments QueueFullError {T} _.
Arguments ExecutionError {T} _.
Arguments ReturnedFalse {T} _.
Arguments Ok {T} _.
Arguments loadEngine {T} _ _.
Arguments request_of {T} _.
Arguments blob_shape {T} _.
Arguments open_phase {T} _.
Arguments set_blob {T} _ _ _ _ _.
Arguments getEngine {T} _.
Arguments enqueue_call {T} _ _ _ _.
Arguments core_enqueue {T} _ _ _ _.
Arguments core_enqueue_all {T} _ _ _ _.
Arguments core_loadEngine {T} _ _.
Arguments core_setMaxBatchSize {T} _ _.
Arguments submitRequest {T} _ _.
Arguments fetchResults {T} _ _.
Arguments OpLoadEngine {T} _.
Arguments OpSetMaxBatchSize {T} _.
Arguments OpEnqueue {T} _.
Arguments OpSubmit {T}.
Arguments OpFetchResults {T}.
Arguments core_step {T} _ _ _ _ _ _.
Arguments core_run {T} _ _ _ _ _ _.
Arguments state_after {T} _.
Arguments binds_backend {T} _.
Arguments loadable {T} _ _ _ _.

(** ** The license-plate model *)

(** The members of [LicensePlateDetectionModel]; [max_sequence_size_] is a
    [const int] initialised to 88 (line 48). *)
Record LicensePlateDetectionModel : Set := mkLicensePlateDetectionModel {
  input_ : string;
  seq_input_ : string;
  output_ : string
}.

Definition max_sequence_size_ (m : LicensePlateDetectionModel) : Z := 88.

Definition getInputName (m : LicensePlateDetectionModel) : string := input_ m.
Definition getSeqInputName (m : LicensePlateDetectionModel) : string :=
  seq_input_ m.
Definition getOutputName (m : LicensePlateDetectionModel) : string := output_ m.

Definition getMaxSequenceSize (m : LicensePlateDetectionModel) : Z :=
  max_sequence_size_ m.

(** The value that ends a sequence (line 47: ended with "-1"). *)
Definition SENTINEL : Z := -1.

(** Modelled from the spec: the decoding of the model's output sequence
    (the inference class that reads it is not part of the sources; spec
    4.3: decoding stops at the first sentinel met and never goes past the
    declared maximum). *)
Fixpoint decode_upto (n : nat) (output : list Z) : list Z :=
  match n, output with
  | S n', v :: rest =>
      if bool_decide (v = SENTINEL) then [] else v :: decode_upto n' rest
  | _, _ => []
  end.

(** Modelled from the spec: decoding reads at most the declared maximum
    of the model. *)
Definition decode (m : LicensePlateDetectionModel) (output : list Z) : list Z :=
  decode_upto (Z.to_nat (getMaxSequenceSize m)) output.

(** ** Concrete frames, blobs and primitives *)

Definition float_one : float := float_of_int 1.
Definition float_two : float := float_of_int 2.

(** An instance of the resize primitive: nearest-neighbour sampling that
    keeps the type of the source and throws on an empty source or size. *)
Definition resize_nearest (src : Mat) (w h : Z) : option Mat :=
  if bool_decide (0 < w ∧ 0 < h ∧ 0 < rows src ∧ 0 < cols src) then
    let es := Z.to_nat (elemSize src) in
    let pixel i j :=
      take es (drop (Z.to_nat ((i * rows src / h) * cols src
                               + j * cols src / w) * es)
                    (data src)) in
    Some (mkMat h w (depth src) (cn src)
            (flat_map (λ i, flat_map (pixel i) (upto w)) (upto h)))
  else None.

(** A 2x2 image of three 8-bit channels whose first channel holds
    [[10,20],[30,40]], and the single-channel image of the same values. *)
Definition bgr_2x2 : Mat :=
  mkMat 2 2 CV_8U 3 [10; 1; 2; 20; 3; 4; 30; 5; 6; 40; 7; 8].
Definition gray_2x2 : Mat := mkMat 2 2 CV_8U 1 [10; 20; 30; 40].

(** A 4x4 image of three channels, all values 100. *)
Definition bgr_4x4 : Mat := mkMat 4 4 CV_8U 3 (replicate 48 100).

(** A 2x2x1 buffer of 8-bit elements for one frame, and one of floats. *)
Definition blob_u8_2x2 : Blob Z := mkBlob [1; 1; 2; 2] [0; 0; 0; 0].
Definition blob_f32_2x2 : Blob float :=
  mkBlob [1; 1; 2; 2] (replicate 4 (S754_zero false)).

(** An engine with one 2x2x1 input blob named [data], bound to a fresh
    inference (capacity 1), and the same inference with its batch full. *)
Definition input_data : string := "data".
Definition engine_u8 : Engine Z :=
  mkEngine (Some {[ input_data := blob_u8_2x2 ]}).
Definition inference_u8 : BaseInference Z :=
  loadEngine (Some engine_u8) BaseInference_new.
Definition inference_full : BaseInference Z :=
  mkBaseInference [] (Some engine_u8) 1 1 false.
Definition core_u8 : Core Z := mkCore inference_u8 Idle.

Definition frame_loc : Rect := mkRect 5 6 7 8.
Definition call_bgr : Call := mkCall bgr_2x2 frame_loc float_one 0 input_data.

(** The states of one round trip of [core_u8]: the frame of [call_bgr]
    enqueued, the request submitted, the results fetched. *)
Definition blob_u8_loaded : Blob Z := mkBlob [1; 1; 2; 2] [10; 20; 30; 40].
Definition core_u8_enqueued : Core Z :=
  mkCore (set_blob inference_u8 input_data blob_u8_loaded
                   {[ input_data := blob_u8_2x2 ]} 1)
         Enqueuing.
Definition core_u8_submitted : Core Z :=
  mkCore (base core_u8_enqueued) Submitted.
Definition core_u8_fetched : Core Z :=
  mkCore (mkBaseInference [] (engine_ (base core_u8_enqueued)) 1 0 true) Idle.

(** A backend that runs and leaves its blobs alone, and a model whose
    output holds no result. *)
Definition execute_id (req : gmap string (Blob Z)) : option (gmap string (Blob Z)) :=
  Some req.
Definition parse_none (req : gmap string (Blob Z)) : list Result := [].

Definition plate_model : LicensePlateDetectionModel :=
  mkLicensePlateDetectionModel "data" "seq_ind" "decode".

(** ** Frames that fit a slot, and runs of enqueue calls *)

Section Slots.

Context {T : Type}.
Variable convert : float → option T.
Variable cv_resize : Mat → Z → Z → option Mat.

(** The image is one the loops of lines 57-64 are defined on, for a blob
    of [C] channels, height [H] and width [W] whose buffer has [len]
    elements: three 8-bit channels, the size of the blob, at most three
    declared channels, the slot of [batch_index] inside the buffer with
    an offset that is an [int], and every scaled value convertible. *)
Definition fits (image : Mat) (scale_factor : float) (batch_index : Z)
    (W H C : Z) (len : nat) : Prop :=
  Mat_ok image ∧ is_8bit_3channel image
  ∧ rows image = H ∧ cols image = W
  ∧ 0 <= C <= 3
  ∧ 0 <= batch_index ∧ batch_index * W * H * C <= INT_MAX
  ∧ (batch_index + 1) * W * H * C <= Z.of_nat len
  ∧ ∀ c h w px, 0 <= c < C → 0 <= h < H → 0 <= w < W →
      source_pixel image h w c = Some px →
      is_Some (convert (uchar_times px scale_factor)).

(** The value the cell at position [j] of a slot receives: [j] counts
    the cells of the slot channel plane after channel plane, each plane
    row after row. *)
Definition slot_value (image : Mat) (scale_factor : float) (W H : Z) (j : Z)
    : option T :=
  let c := j / (W * H) in
  let h := (j mod (W * H)) / W in
  let w := (j mod (W * H)) mod W in
  px ← source_pixel image h w c;
  convert (uchar_times px scale_factor).

(** Enqueue call after enqueue call on one engine, as a caller that
    batches frames makes them: the flags returned and the engine
    afterwards, [None] when a call faults. *)
Fixpoint enqueue_seq (calls : list Call) (st : BaseInference T)
    : option (list bool * BaseInference T) :=
  match calls with
  | [] => Some ([], st)
  | k :: rest =>
      match enqueue_call convert cv_resize k st with
      | Some (flag, st') =>
          match enqueue_seq rest st' with
          | Some (flags, st'') => Some (flag :: flags, st'')
          | None => None
          end
      | None => None
      end
  end.

End Slots.

(** The data of an 8-bit unsigned image: values of an [unsigned char]. *)
Definition bytes_ok (m : Mat) : Prop := Forall (λ x, 0 <= x <= 255) (data m).

#[local] Instance spec_float_eq_dec : EqDecision spec_float.
Proof. solve_decision. Defined.

(** A second 2x2 frame, and a buffer of two 2x2x1 slots. *)
Definition bgr_2x2_alt : Mat :=
  mkMat 2 2 CV_8U 3 [50; 9; 9; 60; 9; 9; 70; 9; 9; 80; 9; 9].
Definition blob_u8_batch2 : Blob Z := mkBlob [2; 1; 2; 2] (replicate 8 0).


(** A 2x2 frame of three channels, all values 100; a blob that declares
    no channel; an engine of capacity 2 bound to a backend with the
    two-slot blob, and a call for each slot. *)
Definition bgr_100_2x2 : Mat := mkMat 2 2 CV_8U 3 (replicate 12 100).
Definition blob_u8_no_channel : Blob Z := mkBlob [1; 0; 2; 2] [].
Definition inference_batch2 : BaseInference Z :=
  mkBaseInference [] (Some (mkEngine (Some {[ input_data := blob_u8_batch2 ]})))
                  2 0 false.
Definition call_slot0 : Call := mkCall bgr_2x2 frame_loc float_one 0 input_data.
Definition call_slot1 : Call :=
  mkCall bgr_2x2_alt frame_loc float_one 1 input_data.

(** * Properties *)

(** ** Machine integers *)

Lemma to_size_t_small z : is_size_t z → to_size_t z = z.
Proof. unfold to_size_t, is_size_t. intros. by apply Z.mod_small. Qed.

Lemma to_int_small z : is_int z → to_int z = z.
Proof.
  unfold to_int, is_int, INT_MIN, INT_MAX, INT_WIDTH. intros.
  rewrite Z.mod_small; lia.
Qed.

Lemma size_mul_mod a b : size_mul (to_size_t a) b = to_size_t (a * b).
Proof. unfold size_mul, to_size_t. by rewrite Z.mul_mod_idemp_l. Qed.

Lemma size_add_mod_l a b : size_add (to_size_t a) b = to_size_t (a + b).
Proof. unfold size_add, to_size_t. by rewrite Zplus_mod_idemp_l. Qed.

Lemma size_add_mod_r a b : size_add a (to_size_t b) = to_size_t (a + b).
Proof. unfold size_add, to_size_t. by rewrite Zplus_mod_idemp_r. Qed.

Lemma batchOffset_mod b W H C :
  batchOffset b W H C = to_int (to_size_t (b * W * H * C)).
Proof. unfold batchOffset. by rewrite !size_mul_mod. Qed.

Lemma batchOffset_exact b W H C :
  0 <= b * W * H * C <= INT_MAX → batchOffset b W H C = b * W * H * C.
Proof.
  intros Hr. rewrite batchOffset_mod.
  rewrite to_size_t_small, to_int_small; [done | |];
    unfold is_int, is_size_t, INT_MIN, INT_MAX, SIZE_WIDTH in *; lia.
Qed.

Lemma blob_index_mod off W H c h w :
  blob_index off W H c h w = to_size_t (off + c * W * H + h * W + w).
Proof.
  unfold blob_index, size_add, size_mul, to_size_t.
  rewrite Z.mul_mod_idemp_l by done.
  repeat (rewrite Zplus_mod_idemp_l || rewrite Zplus_mod_idemp_r).
  rewrite <- (Zplus_mod_idemp_l (_ + _) w), <- Zplus_mod.
  by rewrite Zplus_mod_idemp_l.
Qed.

Lemma blob_index_exact off W H c h w :
  is_size_t (off + c * W * H + h * W + w) →
  blob_index off W H c h w = off + c * W * H + h * W + w.
Proof. intros. by rewrite blob_index_mod, to_size_t_small. Qed.

(** ** Loops that fill a segment of a buffer *)

Section Writes.

Context {T : Type}.

Lemma writes_ext run lo hi lo' hi' (P Q : Z → T → Prop) :
  lo = lo' → hi = hi' → (∀ j v, Q j v → P j v) →
  writes run lo hi P → writes run lo' hi' Q.
Proof.
  intros -> -> HQ Hw buf Hlo Hhi.
  destruct (Hw buf Hlo Hhi) as (buf' & ? & ? & HP & ?).
  exists buf'. naive_solver.
Qed.

(** One store writes one cell. *)
Lemma blob_store_writes (i : Z) (y : T) :
  writes (λ buf, blob_store buf i y) i (i + 1) (λ j v, j = i ∧ v = y).
Proof.
  intros buf Hlo Hhi. unfold blob_store.
  rewrite bool_decide_eq_true_2 by lia.
  eexists; split; [done |]. split; [apply length_insert |]. split.
  - intros j v [-> ->]. apply list_lookup_insert_eq. lia.
  - intros j Hj Hout. apply list_lookup_insert_ne. lia.
Qed.

(** A loop whose iteration [i] fills the [i]-th segment of length [k]
    fills the segments of all its iterations. *)
Lemma for_each_writes (body : Z → list T → option (list T)) (lo k : Z)
    (P : Z → Z → T → Prop) (n : nat) (m : Z) :
  0 <= k → 0 <= m →
  (∀ i, m <= i < m + Z.of_nat n →
     writes (body i) (lo + i * k) (lo + (i + 1) * k) (P i)) →
  (∀ i j v, P i j v → lo + i * k <= j < lo + (i + 1) * k) →
  writes (for_each (seqZ m (Z.of_nat n)) body)
         (lo + m * k) (lo + (m + Z.of_nat n) * k)
         (λ j v, ∃ i, m <= i < m + Z.of_nat n ∧ P i j v).
Proof.
  intros Hk. revert m. induction n as [| n IH]; intros m Hm Hbody Hseg buf Hlo Hhi.
  - exists buf. simpl. split; [done |]. split; [done |]. split; [| done].
    intros j v (i & ? & _). lia.
  - rewrite seqZ_cons by lia. simpl.
    destruct (Hbody m ltac:(lia) buf ltac:(lia) ltac:(nia))
      as (buf1 & -> & Hlen1 & HP1 & Hout1).
    replace (Z.pred (Z.of_nat (S n))) with (Z.of_nat n) by lia.
    destruct (IH (Z.succ m) ltac:(lia)
                ltac:(intros i Hi; apply Hbody; lia) Hseg buf1
                ltac:(nia) ltac:(rewrite Hlen1; nia))
      as (buf' & -> & Hlen' & HP' & Hout').
    exists buf'. split; [done |]. split; [congruence |]. split.
    + intros j v (i & Hi & HPi).
      destruct (decide (i = m)) as [-> | Hne].
      * pose proof (Hseg _ _ _ HPi) as Hj.
        rewrite Hout' by nia. by apply HP1.
      * apply HP'. exists i. split; [lia | done].
    + intros j Hj Hout. rewrite Hout' by nia. apply Hout1; [done | nia].
Qed.

Lemma upto_writes (body : Z → list T → option (list T)) (lo k n : Z)
    (P : Z → Z → T → Prop) :
  0 <= k → 0 <= n →
  (∀ i, 0 <= i < n → writes (body i) (lo + i * k) (lo + (i + 1) * k) (P i)) →
  (∀ i j v, P i j v → lo + i * k <= j < lo + (i + 1) * k) →
  writes (for_each (upto n) body) lo (lo + n * k)
         (λ j v, ∃ i, 0 <= i < n ∧ P i j v).
Proof.
  intros Hk Hn Hbody Hseg. unfold upto.
  rewrite <- (Z2Nat.id n) by done.
  eapply writes_ext;
    [| | | apply (for_each_writes body lo k P (Z.to_nat n) 0); try done].
  - lia.
  - lia.
  - intros j v (i & Hi & HP). exists i. split; [lia | done].
  - intros i Hi. apply Hbody. lia.
Qed.


End Writes.

(** ** Reading a pixel *)

Lemma elemSize_3 m : elemSize m = SIZEOF_VEC3B ↔ is_8bit_3channel m.
Proof.
  unfold elemSize, is_8bit_3channel, SIZEOF_VEC3B.
  destruct (depth m); simpl; lia.
Qed.



(** On a 3-channel 8-bit image, inside it, the read is the source pixel's
    component. *)
Lemma pixel_value_source image s c h w :
  Mat_ok image → is_8bit_3channel image →
  0 <= h < rows image → 0 <= w < cols image → 0 <= c < 3 →
  ∃ px, source_pixel image h w c = Some px
        ∧ pixel_value image s c h w = Some (uchar_times px s).
Proof.
  intros (Hr & Hc & Hlen) H3 Hh Hw Hc3.
  pose proof (proj2 (elemSize_3 image) H3) as He.
  destruct H3 as [Hcn Hdepth].
  unfold INT_MAX in *.
  assert (Hi : ∀ z, 0 <= z < 2 ^ 31 → to_int z = z).
  { intros z Hz. apply to_int_small. unfold is_int, INT_MIN, INT_MAX. lia. }
  assert (Hfit : cols image * 3 * h + w * 3 + 3 <= Z.of_nat (length (data image))).
  { rewrite Hlen, He. unfold SIZEOF_VEC3B. nia. }
  assert (Hat : Mat_at_Vec3b image h w
                = Some (take 3 (drop (Z.to_nat (cols image * 3 * h + w * 3))
                                     (data image)))).
  { unfold Mat_at_Vec3b, step. rewrite He. unfold SIZEOF_VEC3B.
    rewrite bool_decide_eq_true_2 by (rewrite Hcn; lia).
    rewrite bool_decide_eq_true_2; [done |].
    rewrite length_take, length_drop. lia. }
  unfold pixel_value, source_pixel. rewrite !Hi by lia. rewrite Hat. simpl.
  unfold Vec3b_get. rewrite bool_decide_eq_true_2 by done.
  rewrite lookup_take_lt by lia. rewrite lookup_drop, Hcn.
  replace (Z.to_nat (cols image * 3 * h + w * 3) + Z.to_nat c)%nat
    with (Z.to_nat ((h * cols image + w) * 3 + c)) by nia.
  destruct (data image !! Z.to_nat ((h * cols image + w) * 3 + c))
    as [px |] eqn:Hpx.
  - exists px. by simpl.
  - apply lookup_ge_None in Hpx. nia.
Qed.

(** ** The layout of a loaded frame *)

Section Layout.

Context {T : Type}.
Variable convert : float → option T.
Variable image : Mat.
Variable scale_factor : float.
Variables offset width height channels : Z.

Local Abbreviation loaded := (loaded convert image scale_factor).
Local Abbreviation cell := (cell offset width height).
Local Abbreviation in_row := (in_row convert image scale_factor offset width height).
Local Abbreviation in_plane := (in_plane convert image scale_factor offset width height).
Local Abbreviation in_slot :=
  (in_slot convert image scale_factor offset width height channels).

Hypothesis offset_pos : 0 <= offset.
Hypothesis width_pos : 0 <= width.
Hypothesis height_pos : 0 <= height.
Hypothesis channels_pos : 0 <= channels.
Hypothesis no_wrap : offset + channels * width * height < 2 ^ SIZE_WIDTH.
Hypothesis all_loaded :
  ∀ c h w, 0 <= c < channels → 0 <= h < height → 0 <= w < width →
    is_Some (loaded c h w).

Lemma cell_bounds c h w :
  0 <= c < channels → 0 <= h < height → 0 <= w < width →
  offset + c * (width * height) + h * width <= cell c h w
    < offset + c * (width * height) + (h + 1) * width
  ∧ offset + (c + 1) * (width * height) <= offset + channels * width * height.
Proof. unfold cell. intros. nia. Qed.

Lemma store_pixel_writes c h w :
  0 <= c < channels → 0 <= h < height → 0 <= w < width →
  writes (store_pixel convert image scale_factor offset width height c h w)
         (cell c h w) (cell c h w + 1)
         (λ j v, j = cell c h w ∧ loaded c h w = Some v).
Proof.
  intros Hc Hh Hw.
  destruct (all_loaded c h w Hc Hh Hw) as [y Hy].
  pose proof (cell_bounds c h w Hc Hh Hw) as Hb.
  assert (Hidx : blob_index offset width height c h w = cell c h w).
  { apply blob_index_exact. unfold is_size_t. fold (cell c h w). nia. }
  intros buf Hlo Hhi.
  destruct (blob_store_writes (cell c h w) y buf Hlo Hhi)
    as (buf' & Hst & Hlen & HP & Hout).
  exists buf'. split.
  - unfold store_pixel. unfold loaded in Hy.
    destruct (pixel_value image scale_factor c h w) as [x |]; [| done].
    simpl in *. rewrite Hy. simpl. by rewrite Hidx.
  - split; [done |]. split; [| done].
    intros j v [-> Hv]. apply HP. split; [done | congruence].
Qed.

Lemma row_writes c h :
  0 <= c < channels → 0 <= h < height →
  writes (for_each (upto width) (λ w,
            store_pixel convert image scale_factor offset width height c h w))
         (offset + c * (width * height) + h * width)
         (offset + c * (width * height) + (h + 1) * width)
         (in_row c h).
Proof.
  intros Hc Hh.
  eapply writes_ext; [| | | eapply (upto_writes _
    (offset + c * (width * height) + h * width) 1 width
    (λ w j v, j = cell c h w ∧ loaded c h w = Some v))].
  - reflexivity.
  - lia.
  - intros j v Hrow. exact Hrow.
  - lia.
  - exact width_pos.
  - intros w Hw.
    eapply writes_ext; [| | | by apply (store_pixel_writes c h w)].
    + unfold cell. lia.
    + unfold cell. lia.
    + intros j v Hcell. exact Hcell.
  - intros w j v HP. simpl in HP. destruct HP as [-> _]. unfold cell. lia.
Qed.

Lemma plane_writes c :
  0 <= c < channels →
  writes (for_each (upto height) (λ h,
            for_each (upto width) (λ w,
              store_pixel convert image scale_factor offset width height c h w)))
         (offset + c * (width * height))
         (offset + (c + 1) * (width * height))
         (in_plane c).
Proof.
  intros Hc.
  eapply writes_ext; [| | | eapply (upto_writes _
    (offset + c * (width * height)) width height (in_row c))].
  - reflexivity.
  - lia.
  - intros j v Hplane. exact Hplane.
  - exact width_pos.
  - exact height_pos.
  - intros h Hh. by apply row_writes.
  - intros h j v (w & Hw & -> & _). unfold cell. nia.
Qed.

Lemma fill_blob_writes :
  writes (fill_blob convert image scale_factor offset width height channels)
         offset (offset + channels * (width * height)) in_slot.
Proof.
  unfold fill_blob.
  eapply writes_ext; [| | | eapply (upto_writes _
    offset (width * height) channels in_plane)].
  - reflexivity.
  - reflexivity.
  - intros j v Hslot. exact Hslot.
  - nia.
  - exact channels_pos.
  - intros c Hc. eapply writes_ext; [| | | by apply (plane_writes c)].
    + reflexivity.
    + reflexivity.
    + intros j v Hplane. exact Hplane.
  - intros c j v (h & Hh & w & Hw & -> & _). unfold cell. nia.
Qed.

End Layout.

(** ** Claims about the frame loader *)

Lemma size_differs_false W H image :
  0 <= rows image <= INT_MAX → 0 <= cols image <= INT_MAX →
  size_differs W H image = false ↔ cols image = W ∧ rows image = H.
Proof.
  intros Hr Hc. unfold size_differs, INT_MAX in *.
  rewrite !to_size_t_small by (unfold is_size_t, SIZE_WIDTH; lia).
  rewrite orb_false_iff, !negb_false_iff, !Z.eqb_eq. lia.
Qed.

(** The value line 55 stores in an [int] wraps for a large blob. *)
Example batchOffset_wraps : batchOffset 1 32768 32768 3 = -1073741824.
Proof. reflexivity. Qed.

(** C2, as amended: for a 3-channel 8-bit source image whose size is the
    blob's declared width and height, a declared channel count of at most
    3, and a batch index [b >= 0] whose slot lies inside the buffer with
    [b * width * height * channels] an [int], the conversion succeeds
    without resizing, and for every channel [c], row [h] and column [w] in
    range the cell [b*W*H*C + c*W*H + h*W + w] holds
    [source_pixel[h][w][c] * scale_factor] converted to the element type;
    cells outside the slot keep their values. The 2x2 image whose first
    channel is [[10,20],[30,40]] loads into a 2x2x1 buffer as
    [10,20,30,40] at scale 1.0 and as [20,40,60,80] at scale 2.0. *)
Theorem matU8ToBlob_layout :
  (∀ (T : Type) (convert : float → option T) cv_resize image (blob : Blob T)
     (scale_factor : float) (b n C H W : Z),
     dims blob = [n; C; H; W] →
     Mat_ok image → is_8bit_3channel image →
     rows image = H → cols image = W →
     0 <= C <= 3 →
     0 <= b → b * W * H * C <= INT_MAX →
     (b + 1) * W * H * C <= Z.of_nat (length (buffer blob)) →
     (∀ c h w px, 0 <= c < C → 0 <= h < H → 0 <= w < W →
        source_pixel image h w c = Some px →
        is_Some (convert (uchar_times px scale_factor))) →
     ∃ blob',
       matU8ToBlob convert cv_resize image blob scale_factor b
         = ([], Some blob')
       ∧ dims blob' = dims blob
       ∧ length (buffer blob') = length (buffer blob)
       ∧ (∀ c h w, 0 <= c < C → 0 <= h < H → 0 <= w < W →
            ∃ px, source_pixel image h w c = Some px
              ∧ buffer blob' !! Z.to_nat (b * W * H * C + c * W * H + h * W + w)
                = convert (uchar_times px scale_factor))
       ∧ (∀ j, 0 <= j → ¬ (b * W * H * C <= j < (b + 1) * W * H * C) →
            buffer blob' !! Z.to_nat j = buffer blob !! Z.to_nat j))
  ∧ (matU8ToBlob convert_u8 resize_nearest bgr_2x2 blob_u8_2x2 float_one 0).2
    = Some (mkBlob [1; 1; 2; 2] [10; 20; 30; 40])
  ∧ (matU8ToBlob convert_u8 resize_nearest bgr_2x2 blob_u8_2x2 float_two 0).2
    = Some (mkBlob [1; 1; 2; 2] [20; 40; 60; 80])
  ∧ (matU8ToBlob convert_float resize_nearest bgr_2x2 blob_f32_2x2 float_one 0).2
    = Some (mkBlob [1; 1; 2; 2] (float_of_int <$> [10; 20; 30; 40]))
  ∧ (matU8ToBlob convert_float resize_nearest bgr_2x2 blob_f32_2x2 float_two 0).2
    = Some (mkBlob [1; 1; 2; 2] (float_of_int <$> [20; 40; 60; 80])).
Proof.
  split; [| by vm_compute].
  intros T convert cv_resize image blob s b n C H W
         Hdims Hok H3 Hrows Hcols HC Hb Hint Hfit Hconv.
  pose proof Hok as (Hr & Hc & _). unfold INT_MAX in *.
  assert (HWH : 0 <= W * H <= 2 ^ 31 * 2 ^ 31) by nia.
  assert (Hoff : batchOffset b W H C = b * W * H * C).
  { apply batchOffset_exact. unfold INT_MAX. nia. }
  assert (Hsame : size_differs W H image = false).
  { apply size_differs_false; unfold INT_MAX; [lia | lia | done]. }
  destruct (fill_blob_writes convert image s (b * W * H * C) W H C)
    with (buf := buffer blob) as (buf' & Hrun & Hlen & HP & Hout).
  - nia.
  - lia.
  - lia.
  - lia.
  - unfold SIZE_WIDTH. nia.
  - intros c h w Hc' Hh Hw.
    destruct (pixel_value_source image s c h w Hok H3) as (px & Hpx & Hval);
      [lia | lia | lia |].
    unfold loaded. rewrite Hval. simpl. by eapply Hconv.
  - nia.
  - lia.
  - exists (mkBlob (dims blob) buf').
    unfold matU8ToBlob, resized_image. rewrite Hdims. simpl.
    rewrite Hsame, Hoff. simpl. rewrite Hrun. simpl.
    split; [done |]. split; [done |]. split; [done |]. split.
    + intros c h w Hc' Hh Hw.
      destruct (pixel_value_source image s c h w Hok H3) as (px & Hpx & Hval);
        [lia | lia | lia |].
      exists px. split; [done |].
      destruct (Hconv c h w px Hc' Hh Hw Hpx) as [y Hy]. rewrite Hy.
      apply HP. exists c. split; [done |]. exists h. split; [done |].
      exists w. split; [done |]. split; [done |].
      unfold loaded. rewrite Hval. by simpl.
    + intros j Hj Hn. apply Hout; [done | nia].
Qed.

Lemma bgr_2x2_ok : Mat_ok bgr_2x2 ∧ is_8bit_3channel bgr_2x2.
Proof. by vm_compute. Defined.

Lemma matU8ToBlob_layout_witness :
  ∃ blob',
    matU8ToBlob convert_float resize_nearest bgr_2x2 blob_f32_2x2 float_two 0
      = ([], Some blob')
    ∧ ∃ px, source_pixel bgr_2x2 1 1 0 = Some px
        ∧ buffer blob' !! Z.to_nat (0 * 2 * 2 * 1 + 0 * 2 * 2 + 1 * 2 + 1)
          = convert_float (uchar_times px float_two).
Proof.
  destruct (proj1 matU8ToBlob_layout float convert_float resize_nearest
              bgr_2x2 blob_f32_2x2 float_two 0 1 1 2 2)
    as (blob' & Hrun & _ & _ & Hcells & _).
  - reflexivity.
  - exact (proj1 bgr_2x2_ok).
  - exact (proj2 bgr_2x2_ok).
  - reflexivity.
  - reflexivity.
  - lia.
  - lia.
  - by vm_compute.
  - by vm_compute.
  - intros c h w px _ _ _ _. by eexists.
  - exists blob'. split; [exact Hrun |]. apply Hcells; lia.
Defined.

(** C2, as stated, fails on the single-channel 2x2 image
    [[10,20],[30,40]] of the specification: the loader reads every pixel
    as a [cv::Vec3b], which a single-channel matrix does not hold, and so
    produces no buffer [10,20,30,40]. Even the address [Mat::at] computes
    for pixel (0, 1), 3 bytes into the row, is that of the value 40 and
    not of 20. *)
Lemma matU8ToBlob_gray_2x2_faults :
  (matU8ToBlob convert_u8 resize_nearest gray_2x2 blob_u8_2x2 float_one 0).2
    = None
  ∧ (matU8ToBlob convert_u8 resize_nearest gray_2x2 blob_u8_2x2 float_one 0).2
    ≠ Some (mkBlob [1; 1; 2; 2] [10; 20; 30; 40])
  ∧ data gray_2x2 !! Z.to_nat (step gray_2x2 * 0 + 1 * SIZEOF_VEC3B) = Some 40.
Proof. split; [by vm_compute | split; by vm_compute]. Qed.





(** ** The shape of a blob across loads *)

Section Shape.

Context {T : Type}.
Variable convert : float → option T.
Variable cv_resize : Mat → Z → Z → option Mat.

Lemma for_each_keeps {S : Type} (f : S → nat) (idx : list Z)
    (body : Z → S → option S) :
  (∀ i s s', body i s = Some s' → f s' = f s) →
  ∀ s s', for_each idx body s = Some s' → f s' = f s.
Proof.
  intros Hbody. induction idx as [| i idx IH]; intros s s' Hrun; simpl in Hrun.
  - by simplify_eq.
  - destruct (body i s) as [s1 |] eqn:Hi; [| done].
    rewrite (IH _ _ Hrun). by eapply Hbody.
Qed.

(** Two runs of a loop from related states agree on success and end in
    related states, when each iteration does. *)
Lemma for_each_related {S : Type} (R : S → S → Prop) (idx : list Z)
    (body : Z → S → option S) :
  (∀ i s1 s2, R s1 s2 → option_Forall2 R (body i s1) (body i s2)) →
  ∀ s1 s2, R s1 s2 →
    option_Forall2 R (for_each idx body s1) (for_each idx body s2).
Proof.
  intros Hbody. induction idx as [| i idx IH]; intros s1 s2 HR; simpl.
  - by constructor.
  - destruct (Hbody i s1 s2 HR) as [s1' s2' HR' |]; [by apply IH | constructor].
Qed.

Lemma store_pixel_keeps_length image s offset W H c h w (buf buf' : list T) :
  store_pixel convert image s offset W H c h w buf = Some buf' →
  length buf' = length buf.
Proof.
  unfold store_pixel, blob_store. intros Hst.
  destruct (pixel_value image s c h w) as [x |]; [| done]. simpl in Hst.
  destruct (convert x) as [y |]; [| done]. simpl in Hst.
  case_bool_decide; [| done]. simplify_eq. apply length_insert.
Qed.

Lemma store_pixel_related image s offset W H c h w (b1 b2 : list T) :
  same_length b1 b2 →
  option_Forall2 same_length
    (store_pixel convert image s offset W H c h w b1)
    (store_pixel convert image s offset W H c h w b2).
Proof.
  unfold store_pixel, blob_store, same_length. intros Hlen.
  destruct (pixel_value image s c h w) as [x |]; [| constructor]. simpl.
  destruct (convert x) as [y |]; [| constructor]. simpl.
  rewrite Hlen. case_bool_decide; constructor.
  by rewrite !length_insert.
Qed.

Lemma fill_blob_keeps_length image s offset W H C (buf buf' : list T) :
  fill_blob convert image s offset W H C buf = Some buf' →
  length buf' = length buf.
Proof.
  unfold fill_blob. apply (for_each_keeps length). intros c.
  apply (for_each_keeps length). intros h.
  apply (for_each_keeps length). intros w.
  apply store_pixel_keeps_length.
Qed.

Lemma fill_blob_related image s offset W H C (b1 b2 : list T) :
  same_length b1 b2 →
  option_Forall2 same_length
    (fill_blob convert image s offset W H C b1)
    (fill_blob convert image s offset W H C b2).
Proof.
  unfold fill_blob. apply for_each_related. intros c.
  apply for_each_related. intros h.
  apply for_each_related. intros w.
  apply store_pixel_related.
Qed.

(** A load keeps the dimensions and the length of the buffer. *)
Lemma matU8ToBlob_keeps_shape frame (blob blob' : Blob T) s b :
  (matU8ToBlob convert cv_resize frame blob s b).2 = Some blob' →
  blob_shape blob' = blob_shape blob.
Proof.
  unfold matU8ToBlob, blob_shape. intros Hrun.
  destruct (dims blob !! 3%nat) as [W |]; [| done].
  destruct (dims blob !! 2%nat) as [H |]; [| done].
  destruct (dims blob !! 1%nat) as [C |]; [| done].
  destruct (resized_image cv_resize W H frame) as [calls [img |]];
    simpl in Hrun; [| done].
  destruct (fill_blob convert img s (batchOffset b W H C) W H C (buffer blob))
    as [buf' |] eqn:Hfill; [| done].
  simpl in Hrun. simplify_eq. simpl.
  by rewrite (fill_blob_keeps_length _ _ _ _ _ _ _ _ Hfill).
Qed.

(** Whether a load is defined depends on the blob through its shape only. *)
Lemma matU8ToBlob_shape_only frame (b1 b2 : Blob T) s b :
  blob_shape b1 = blob_shape b2 →
  is_Some (matU8ToBlob convert cv_resize frame b1 s b).2 →
  is_Some (matU8ToBlob convert cv_resize frame b2 s b).2.
Proof.
  unfold matU8ToBlob, blob_shape. intros Hshape [blob' Hrun].
  injection Hshape as Hd Hl. rewrite <- Hd.
  destruct (dims b1 !! 3%nat) as [W |]; [| done].
  destruct (dims b1 !! 2%nat) as [H |]; [| done].
  destruct (dims b1 !! 1%nat) as [C |]; [| done].
  destruct (resized_image cv_resize W H frame) as [calls [img |]];
    simpl in *; [| done].
  destruct (fill_blob_related img s (batchOffset b W H C) W H C
              (buffer b1) (buffer b2) Hl) as [x y _ |]; [by eexists | done].
Qed.

End Shape.

(** ** Claims about the engine *)

Section EngineProps.

Context {T : Type}.
Variable convert : float → option T.
Variable cv_resize : Mat → Z → Z → option Mat.
Variable execute : gmap string (Blob T) → option (gmap string (Blob T)).
Variable parse : gmap string (Blob T) → list Result.

Implicit Types (st : BaseInference T) (c : Core T) (k : Call).

(** At the capacity the call is refused and nothing changes. *)
Lemma enqueue_at_capacity frame loc s b name st :
  enqueued_frames st = max_batch_size_ st →
  enqueue convert cv_resize frame loc s b name st = Some (false, st).
Proof. unfold enqueue. intros Hfull. by rewrite bool_decide_eq_true_2. Qed.

(** C1: when the enqueued count equals [max_batch_size_], [enqueue]
    returns [false] and the engine, its count and the blobs of its backend
    included, is as it was: the frame is refused, not dropped or cut. *)
Theorem enqueue_full_rejected frame loc s b name st :
  getEnqueuedNum st = max_batch_size_ st →
  enqueue convert cv_resize frame loc s b name st = Some (false, st)
  ∧ ∀ flag st',
      enqueue convert cv_resize frame loc s b name st = Some (flag, st') →
      flag = false ∧ st' = st ∧ getEnqueuedNum st' = getEnqueuedNum st.
Proof.
  intros Hfull. rewrite (enqueue_at_capacity _ _ _ _ _ _ Hfull).
  split; [done |]. intros flag st' Heq. by simplify_eq.
Qed.

(** What an accepted call is. *)
Lemma enqueue_true_iff frame loc s b name st st' :
  enqueue convert cv_resize frame loc s b name st = Some (true, st') ↔
  enqueued_frames st ≠ max_batch_size_ st
  ∧ ∃ req blob blob',
      request_of st = Some req ∧ req !! name = Some blob
      ∧ (matU8ToBlob convert cv_resize frame blob s b).2 = Some blob'
      ∧ enqueued_frames st + 1 <= INT_MAX
      ∧ st' = set_blob st name blob' req (enqueued_frames st + 1).
Proof.
  unfold enqueue, request_of, int_incr. split.
  - intros Hrun. case_bool_decide as Hfull; [done |]. split; [done |].
    destruct (engine_ st) as [e |]; [| done]. simpl in Hrun.
    destruct (getRequest e) as [req |]; [| done]. simpl in Hrun.
    destruct (req !! name) as [blob |] eqn:Hblob; [| done]. simpl in Hrun.
    destruct (matU8ToBlob convert cv_resize frame blob s b).2 as [blob' |]
      eqn:Hload; [| done].
    simpl in Hrun. case_bool_decide; [| done]. simpl in Hrun.
    exists req, blob, blob'. by simplify_eq.
  - intros (Hfull & req & blob & blob' & Hreq & Hblob & Hload & Hmax & ->).
    rewrite bool_decide_eq_false_2 by done.
    destruct (engine_ st) as [e |]; [| done]. simpl in *.
    rewrite Hreq. simpl. rewrite Hblob. simpl. rewrite Hload. simpl.
    by rewrite bool_decide_eq_true_2.
Qed.

(** C3, as amended: a call made while the count is below the capacity
    returns [true] exactly when the backend is bound, has the blob named
    [input_name], and the conversion of the frame into that blob at the
    given batch index is defined; the backend then holds the converted
    blob under that name, the count is one more, and the results, the
    capacity and the fetched flag are as before. The rectangle is not
    used: the call does the same for any other rectangle. *)
Theorem enqueue_accepted frame loc s b name st :
  enqueued_frames st < max_batch_size_ st →
  is_int (max_batch_size_ st) →
  (∀ st',
     enqueue convert cv_resize frame loc s b name st = Some (true, st') ↔
     ∃ req blob blob',
       request_of st = Some req ∧ req !! name = Some blob
       ∧ (matU8ToBlob convert cv_resize frame blob s b).2 = Some blob'
       ∧ request_of st' = Some (<[name := blob']> req)
       ∧ getEnqueuedNum st' = getEnqueuedNum st + 1
       ∧ results_ st' = results_ st
       ∧ max_batch_size_ st' = max_batch_size_ st
       ∧ results_fetched_ st' = results_fetched_ st)
  ∧ ∀ loc',
      enqueue convert cv_resize frame loc' s b name st
      = enqueue convert cv_resize frame loc s b name st.
Proof.
  intros Hbelow Hint. split; [| done].
  intros st'. rewrite enqueue_true_iff. split.
  - intros (_ & req & blob & blob' & Hreq & Hblob & Hload & _ & ->).
    by exists req, blob, blob'.
  - intros (req & blob & blob' & Hreq & Hblob & Hload
            & Hreq' & Hnum & Hres & Hmax & Hfl).
    split; [lia |]. exists req, blob, blob'.
    unfold is_int in Hint. do 4 (split; [done || lia |]).
    destruct st' as [res' eng' max' num' fl']. unfold set_blob.
    unfold request_of, getEnqueuedNum in *. simpl in *.
    destruct eng' as [[req'] |]; [| done]. simpl in *. by simplify_eq.
Qed.

(** *** Sequences of enqueue calls *)

Lemma core_enqueue_Ok k c c' :
  core_enqueue convert cv_resize k c = Ok c' ↔
  open_phase c
  ∧ ∃ st', enqueue_call convert cv_resize k (base c) = Some (true, st')
           ∧ c' = mkCore st' Enqueuing.
Proof.
  unfold core_enqueue, open_phase. split.
  - intros Hrun.
    destruct (phase c); try done;
      (destruct (enqueue_call convert cv_resize k (base c)) as [[[] st'] |];
       try done; simplify_eq; split; [by auto | by exists st']).
  - intros (Hph & st' & -> & ->). by destruct Hph as [-> | ->].
Qed.

Lemma core_enqueue_full k c :
  open_phase c →
  enqueued_frames (base c) = max_batch_size_ (base c) →
  core_enqueue convert cv_resize k c = QueueFullError c.
Proof.
  intros Hph Hfull. unfold core_enqueue, enqueue_call.
  rewrite (enqueue_at_capacity (call_frame k) (call_loc k) (call_scale k)
             (call_batch_index k) (call_input k) (base c) Hfull).
  destruct c as [st ph]. by destruct Hph as [Hph | Hph]; simpl in *; subst.
Qed.

(** A load into one blob keeps every call of the backend loadable. *)
Lemma loadable_set_blob st name req blob blob' n k :
  request_of st = Some req → req !! name = Some blob →
  blob_shape blob' = blob_shape blob →
  loadable convert cv_resize st k →
  loadable convert cv_resize (set_blob st name blob' req n) k.
Proof.
  intros Hreq Hblob Hshape (req0 & blob0 & Hreq0 & Hblob0 & Hload).
  assert (req0 = req) as -> by congruence.
  exists (<[name := blob']> req).
  destruct (decide (name = call_input k)) as [-> | Hne].
  - exists blob'. split; [done |]. split; [by apply lookup_insert_eq |].
    apply (matU8ToBlob_shape_only _ _ _ blob0); [| done]. congruence.
  - exists blob0. split; [done |]. split; [| done].
    by rewrite lookup_insert_ne.
Qed.

(** Below the capacity, calls that the backend can take are all accepted. *)
Lemma core_enqueue_all_accepts (calls : list Call) c :
  open_phase c → is_int (max_batch_size_ (base c)) →
  enqueued_frames (base c) + Z.of_nat (length calls)
    <= max_batch_size_ (base c) →
  Forall (loadable convert cv_resize (base c)) calls →
  ∃ c', core_enqueue_all convert cv_resize calls c = Some c'
        ∧ enqueued_frames (base c')
          = enqueued_frames (base c) + Z.of_nat (length calls).
Proof.
  revert c. induction calls as [| k calls IH]; intros c Hph Hint Hroom Hall.
  - exists c. simpl. split; [done | lia].
  - apply Forall_cons in Hall as [Hk Hall]. simpl length in Hroom.
    pose proof Hk as (req & blob & Hreq & Hblob & [blob' Hload]).
    pose (st' := set_blob (base c) (call_input k) blob' req
                   (enqueued_frames (base c) + 1)).
    assert (Hrun : enqueue_call convert cv_resize k (base c) = Some (true, st')).
    { apply enqueue_true_iff. split; [lia |]. exists req, blob, blob'.
      unfold is_int in Hint. do 3 (split; [done |]). split; [lia | done]. }
    assert (Hok : core_enqueue convert cv_resize k c = Ok (mkCore st' Enqueuing)).
    { apply core_enqueue_Ok. split; [done |]. by exists st'. }
    destruct (IH (mkCore st' Enqueuing)) as (c' & Hrest & Hnum).
    + by right.
    + done.
    + simpl. lia.
    + eapply Forall_impl; [exact Hall |]. intros k' Hk'. simpl.
      eapply loadable_set_blob; [done | done | | done].
      by eapply matU8ToBlob_keeps_shape.
    + exists c'. simpl. rewrite Hok. split; [done |]. simpl in Hnum. lia.
Qed.

(** What a run of accepted calls leaves. *)
Lemma core_enqueue_all_Some (calls : list Call) c c' :
  core_enqueue_all convert cv_resize calls c = Some c' →
  enqueued_frames (base c) <= max_batch_size_ (base c) →
  enqueued_frames (base c')
    = enqueued_frames (base c) + Z.of_nat (length calls)
  ∧ enqueued_frames (base c') <= max_batch_size_ (base c')
  ∧ max_batch_size_ (base c') = max_batch_size_ (base c)
  ∧ (calls ≠ [] → phase c' = Enqueuing)
  ∧ (calls = [] → c' = c).
Proof.
  revert c. induction calls as [| k calls IH]; intros c Hrun Hle; simpl in Hrun.
  - simplify_eq. split; [simpl; lia |]. split; [done |]. split; [done |].
    split; [by intros [] | done].
  - destruct (core_enqueue convert cv_resize k c) as [| | | | c1] eqn:Hk;
      try done.
    apply core_enqueue_Ok in Hk as (_ & st1 & Hst1 & ->).
    unfold enqueue_call in Hst1. apply enqueue_true_iff in Hst1
      as (Hne & req & blob & blob' & _ & _ & _ & _ & ->).
    destruct (IH _ Hrun) as (Hnum & Hle' & Hmax & Hph & Hnil).
    { simpl. lia. }
    simpl in *. split; [lia |]. split; [done |]. split; [done |].
    split; [| done].
    intros _. destruct calls as [| k' calls]; [| by apply Hph].
    by rewrite (Hnil eq_refl).
Qed.

(** C5: after N accepted enqueue calls (1 <= N <= max_batch_size), a
    submit and a fetch, the enqueued count is 0 and the capacity is the
    same; from there every run of at most max_batch_size calls that the
    backend can take is accepted, no run of accepted calls is longer than
    max_batch_size, and after max_batch_size accepted calls the next one
    is refused with the state unchanged. *)
Theorem round_trip_restores_capacity (calls1 : list Call) c0 c1 c2 c3 :
  is_int (max_batch_size_ (base c0)) →
  enqueued_frames (base c0) <= max_batch_size_ (base c0) →
  1 <= Z.of_nat (length calls1) <= max_batch_size_ (base c0) →
  core_enqueue_all convert cv_resize calls1 c0 = Some c1 →
  submitRequest execute c1 = Ok c2 →
  fetchResults parse c2 = Ok c3 →
  getEnqueuedNum (base c3) = 0
  ∧ max_batch_size_ (base c3) = max_batch_size_ (base c0)
  ∧ (∀ calls : list Call,
       Forall (loadable convert cv_resize (base c3)) calls →
       Z.of_nat (length calls) <= max_batch_size_ (base c3) →
       ∃ c4, core_enqueue_all convert cv_resize calls c3 = Some c4
             ∧ getEnqueuedNum (base c4) = Z.of_nat (length calls))
  ∧ (∀ (calls : list Call) c4,
       core_enqueue_all convert cv_resize calls c3 = Some c4 →
       Z.of_nat (length calls) <= max_batch_size_ (base c3)
       ∧ (Z.of_nat (length calls) = max_batch_size_ (base c3) →
          ∀ k, core_enqueue convert cv_resize k c4 = QueueFullError c4)).
Proof.
  intros Hint Hle HN Hall Hsub Hfetch.
  destruct (core_enqueue_all_Some _ _ _ Hall Hle) as (_ & _ & Hmax1 & _ & _).
  assert (Hmax2 : max_batch_size_ (base c2) = max_batch_size_ (base c1)).
  { unfold submitRequest in Hsub. destruct (phase c1); try done.
    destruct (request_of (base c1) ≫= execute); by simplify_eq. }
  assert (H3 : enqueued_frames (base c3) = 0 ∧ phase c3 = Idle
               ∧ max_batch_size_ (base c3) = max_batch_size_ (base c2)).
  { unfold fetchResults in Hfetch. destruct (phase c2); try done.
    destruct (request_of (base c2)); by simplify_eq. }
  destruct H3 as (Hnum3 & Hph3 & Hmax3).
  assert (Hmax : max_batch_size_ (base c3) = max_batch_size_ (base c0))
    by congruence.
  unfold getEnqueuedNum. split; [done |]. split; [done |]. split.
  - intros calls Hload Hlen.
    destruct (core_enqueue_all_accepts calls c3) as (c4 & Hrun & Hnum);
      [by left | by rewrite Hmax | lia | done |].
    exists c4. split; [done | lia].
  - intros calls c4 Hrun.
    destruct (core_enqueue_all_Some _ _ _ Hrun)
      as (Hnum & Hle4 & Hmax4 & Hph4 & _); [lia |].
    split; [lia |]. intros Hfull k. apply core_enqueue_full.
    + right. apply Hph4. intros ->. simpl in Hfull. lia.
    + lia.
Qed.

(** *** What the operations keep *)

Lemma enqueue_false_inv frame loc s b name st st' :
  enqueue convert cv_resize frame loc s b name st = Some (false, st') →
  st' = st ∧ enqueued_frames st = max_batch_size_ st.
Proof.
  unfold enqueue. intros Hrun. case_bool_decide; [by simplify_eq |].
  destruct (engine_ st) as [e |]; [| done]. simpl in Hrun.
  destruct (getRequest e) as [req |]; [| done]. simpl in Hrun.
  destruct (req !! name) as [blob |]; [| done]. simpl in Hrun.
  destruct (matU8ToBlob convert cv_resize frame blob s b).2; [| done].
  simpl in Hrun. by destruct (int_incr (enqueued_frames st)).
Qed.

(** The ways an enqueue leaves a state to go on with. *)
Lemma core_enqueue_after k c c' :
  state_after (core_enqueue convert cv_resize k c) = Some c' →
  open_phase c
  ∧ (c' = c
     ∨ ∃ st', enqueue_call convert cv_resize k (base c) = Some (true, st')
              ∧ c' = mkCore st' Enqueuing).
Proof.
  unfold core_enqueue, open_phase. destruct c as [st ph]. simpl.
  intros Hafter.
  destruct ph; try done; (split; [by auto |]);
    (destruct (enqueue_call convert cv_resize k st) as [[[] st'] |] eqn:Hk;
     simpl in Hafter; [| | done]); simplify_eq.
  1, 3: right; by exists st'.
  all: left; unfold enqueue_call in Hk;
    by apply enqueue_false_inv in Hk as [-> _].
Qed.

Lemma core_submit_after c c' :
  state_after (submitRequest execute c) = Some c' →
  c' = c
  ∨ (phase c = Enqueuing
     ∧ ∃ req, request_of (base c) ≫= execute = Some req
         ∧ c' = mkCore (mkBaseInference (results_ (base c))
                          (Some (mkEngine (Some req)))
                          (max_batch_size_ (base c))
                          (enqueued_frames (base c))
                          (results_fetched_ (base c)))
                       Submitted).
Proof.
  unfold submitRequest. intros Hafter.
  destruct (phase c); simpl in Hafter; try (left; by simplify_eq).
  destruct (request_of (base c) ≫= execute) as [req |]; simpl in Hafter.
  - right. split; [done |]. exists req. by simplify_eq.
  - left. by simplify_eq.
Qed.

Lemma core_fetchResults_Ok c c' :
  fetchResults parse c = Ok c' ↔
  phase c = Submitted
  ∧ ∃ req, request_of (base c) = Some req
      ∧ c' = mkCore (mkBaseInference (parse req) (engine_ (base c))
                       (max_batch_size_ (base c)) 0 true)
                    Idle.
Proof.
  unfold fetchResults. split.
  - intros Hrun. destruct (phase c); try done. split; [done |].
    destruct (request_of (base c)) as [req |]; [| done].
    exists req. by simplify_eq.
  - intros (-> & req & -> & ->). done.
Qed.

Lemma core_fetchResults_after c c' :
  state_after (fetchResults parse c) = Some c' →
  c' = c ∨ fetchResults parse c = Ok c'.
Proof.
  unfold fetchResults.
  destruct (phase c); simpl; try (intros [= ->]; by left).
  destruct (request_of (base c)); [| done]. simpl. intros [= ->]. by right.
Qed.

Lemma core_loadEngine_after e c c' :
  state_after (core_loadEngine e c) = Some c' →
  (phase c = Idle ∨ phase c = Fetched)
  ∧ c' = mkCore (loadEngine e (base c)) (phase c).
Proof.
  unfold core_loadEngine. destruct (phase c); simpl; intros Hafter;
    try done; simplify_eq; auto.
Qed.




(** C9: below the capacity, [enqueue] goes through [engine_] without a
    test: with no backend bound the call is a fault, not a returned
    failure, so a call that returns was made with a backend bound. From
    the initial state the backend is bound by [loadEngine] with a non-null
    argument only: after operations among which there is none, an enqueue
    below the capacity aborts. *)
Theorem enqueue_needs_bound_backend :
  (∀ frame loc s b name st,
     enqueued_frames st < max_batch_size_ st →
     engine_ st = None →
     enqueue convert cv_resize frame loc s b name st = None)
  ∧ (∀ frame loc s b name st,
       enqueued_frames st < max_batch_size_ st →
       is_Some (enqueue convert cv_resize frame loc s b name st) →
       ∃ engine req, engine_ st = Some engine ∧ getRequest engine = Some req)
  ∧ (∀ ops c k,
       (∀ op, op ∈ ops → ¬ binds_backend op) →
       core_run convert cv_resize execute parse ops Core_new = Some c →
       enqueued_frames (base c) < max_batch_size_ (base c) →
       core_enqueue convert cv_resize k c = Abort).
Proof.
  split; [| split].
  - intros frame loc s b name st Hbelow Hnull. unfold enqueue.
    rewrite bool_decide_eq_false_2 by lia. by rewrite Hnull.
  - intros frame loc s b name st Hbelow [r Hrun]. unfold enqueue in Hrun.
    rewrite bool_decide_eq_false_2 in Hrun by lia.
    destruct (engine_ st) as [e |]; [| done]. simpl in Hrun.
    destruct (getRequest e) as [req |] eqn:Hreq; [| done].
    by exists e, req.
  - intros ops c k Hnb Hrun Hbelow.
    assert (Hnull : engine_ (base c) = None).
    { assert (Hinit : engine_ (base (@Core_new T)) = None) by done.
      revert Hinit Hrun. generalize (@Core_new T) as c0.
      induction ops as [| op ops IH]; intros c0 Hinit Hrun; simpl in Hrun.
      - by simplify_eq.
      - destruct (state_after (core_step convert cv_resize execute parse op c0))
          as [c1 |] eqn:Hstep; [| done].
        apply (IH ltac:(intros op' Hin; apply Hnb; by right) c1); [| done].
        destruct op as [e | n | k' | |]; simpl in Hstep.
        + apply core_loadEngine_after in Hstep as [_ ->]. simpl.
          destruct e as [e |]; [| done].
          exfalso. apply (Hnb (OpLoadEngine (Some e))); [by left |].
          by exists e.
        + by simplify_eq.
        + apply core_enqueue_after in Hstep
            as [_ [-> | (st' & Hk & ->)]]; [done |].
          unfold enqueue_call in Hk. apply enqueue_true_iff in Hk
            as (_ & req & _ & _ & Hreq & _).
          unfold request_of in Hreq. by rewrite Hinit in Hreq.
        + apply core_submit_after in Hstep
            as [-> | (_ & req & Hreq & _)]; [done |].
          unfold request_of in Hreq. by rewrite Hinit in Hreq.
        + apply core_fetchResults_after in Hstep as [-> | Hstep]; [done |].
          apply core_fetchResults_Ok in Hstep as (_ & req & Hreq & _).
          unfold request_of in Hreq. by rewrite Hinit in Hreq. }
    unfold core_enqueue, enqueue_call, enqueue.
    rewrite bool_decide_eq_false_2 by lia. rewrite Hnull. simpl.
    by destruct (phase c).
Qed.

(** C7: [getLocation] of a Result made from a rectangle gives that
    rectangle back. No operation other than a fetch changes the results
    of the engine, and a fetch puts the parsed output of the backend in
    their place, whatever they were. *)
Theorem Result_location_fixed :
  (∀ location, getLocation (Result_new location) = location)
  ∧ (∀ frame loc s b name st flag st',
       enqueue convert cv_resize frame loc s b name st = Some (flag, st') →
       results_ st' = results_ st)
  ∧ (∀ n st, results_ (setMaxBatchSize n st) = results_ st)
  ∧ (∀ op c c',
       op ≠ OpFetchResults →
       state_after (core_step convert cv_resize execute parse op c) = Some c' →
       results_ (base c') = results_ (base c))
  ∧ (∀ c c',
       fetchResults parse c = Ok c' →
       ∃ req, request_of (base c) = Some req
              ∧ results_ (base c') = parse req).
Proof.
  assert (Henq : ∀ frame loc s b name st flag st',
            enqueue convert cv_resize frame loc s b name st = Some (flag, st') →
            results_ st' = results_ st).
  { intros frame loc s b name st [] st' Hrun.
    - apply enqueue_true_iff in Hrun as (_ & req & blob & blob' & _ & _ & _ & _ & ->).
      done.
    - by apply enqueue_false_inv in Hrun as [-> _]. }
  split; [done |]. split; [exact Henq |]. split; [done |]. split.
  - intros op c c' Hop Hstep. destruct op as [e | n | k | |]; simpl in Hstep.
    + by apply core_loadEngine_after in Hstep as [_ ->].
    + by simplify_eq.
    + apply core_enqueue_after in Hstep as [_ [-> | (st' & Hk & ->)]];
        [done |]. unfold enqueue_call in Hk. by apply Henq in Hk.
    + by apply core_submit_after in Hstep as [-> | (_ & req & _ & ->)].
    + done.
  - intros c c' Hfetch. apply core_fetchResults_Ok in Hfetch
      as (_ & req & Hreq & ->). by exists req.
Qed.

End EngineProps.

(** ** Engine instances *)

Lemma inference_u8_request :
  request_of inference_u8 = Some {[ input_data := blob_u8_2x2 ]}.
Proof. reflexivity. Defined.

Lemma bgr_2x2_loads :
  (matU8ToBlob convert_u8 resize_nearest bgr_2x2 blob_u8_2x2 float_one 0).2
  = Some blob_u8_loaded.
Proof. by vm_compute. Defined.

Lemma enqueue_full_rejected_witness :
  enqueue convert_u8 resize_nearest bgr_2x2 frame_loc float_one 0 input_data
          inference_full
  = Some (false, inference_full).
Proof.
  apply (enqueue_full_rejected convert_u8 resize_nearest bgr_2x2 frame_loc
           float_one 0 input_data inference_full).
  reflexivity.
Defined.

Lemma enqueue_accepted_witness :
  enqueue convert_u8 resize_nearest bgr_2x2 (mkRect 0 0 2 2) float_one 0
          input_data inference_u8
  = enqueue convert_u8 resize_nearest bgr_2x2 frame_loc float_one 0
            input_data inference_u8.
Proof.
  apply (enqueue_accepted convert_u8 resize_nearest bgr_2x2 frame_loc
           float_one 0 input_data inference_u8).
  - simpl. lia.
  - by vm_compute.
Defined.

(** C3, as stated, fails where it says that the rectangle is recorded: an
    accepted call with the rectangle (5, 6, 7, 8) leaves an engine none of
    whose results carries it. *)
Lemma enqueue_does_not_record_location :
  ∃ st',
    enqueue convert_u8 resize_nearest bgr_2x2 frame_loc float_one 0
            input_data inference_u8 = Some (true, st')
    ∧ ¬ records_location st' frame_loc.
Proof.
  eexists. split.
  - apply enqueue_true_iff. split; [done |].
    exists {[ input_data := blob_u8_2x2 ]}, blob_u8_2x2, blob_u8_loaded.
    split; [exact inference_u8_request |].
    split; [by apply lookup_singleton_eq |].
    split; [exact bgr_2x2_loads |]. split; [by vm_compute | reflexivity].
  - intros (r & Hin & _). simpl in Hin. by apply elem_of_nil in Hin.
Qed.

Lemma call_bgr_accepted :
  enqueue_call convert_u8 resize_nearest call_bgr inference_u8
  = Some (true, base core_u8_enqueued).
Proof.
  apply enqueue_true_iff. split; [done |].
  exists {[ input_data := blob_u8_2x2 ]}, blob_u8_2x2, blob_u8_loaded.
  split; [exact inference_u8_request |].
  split; [by apply lookup_singleton_eq |].
  split; [exact bgr_2x2_loads |]. split; [by vm_compute | reflexivity].
Defined.

Lemma core_u8_round_trip :
  core_enqueue_all convert_u8 resize_nearest [call_bgr] core_u8
    = Some core_u8_enqueued
  ∧ submitRequest execute_id core_u8_enqueued = Ok core_u8_submitted
  ∧ fetchResults parse_none core_u8_submitted = Ok core_u8_fetched.
Proof.
  split; [| split; reflexivity].
  simpl. unfold core_enqueue. simpl phase. simpl base.
  rewrite call_bgr_accepted. reflexivity.
Defined.

Lemma call_bgr_loadable_again :
  Forall (loadable convert_u8 resize_nearest (base core_u8_fetched)) [call_bgr].
Proof.
  constructor; [| constructor].
  exists (<[ input_data := blob_u8_loaded ]> {[ input_data := blob_u8_2x2 ]}),
         blob_u8_loaded.
  split; [reflexivity |]. split; [by apply lookup_insert_eq |].
  vm_compute. by eexists.
Defined.

Lemma round_trip_restores_capacity_witness :
  getEnqueuedNum (base core_u8_fetched) = 0
  ∧ ∃ c4, core_enqueue_all convert_u8 resize_nearest [call_bgr] core_u8_fetched
            = Some c4
          ∧ getEnqueuedNum (base c4) = 1
          ∧ core_enqueue convert_u8 resize_nearest call_bgr c4
            = QueueFullError c4.
Proof.
  destruct core_u8_round_trip as (H1 & H2 & H3).
  destruct (round_trip_restores_capacity convert_u8 resize_nearest
              execute_id parse_none [call_bgr] core_u8
              core_u8_enqueued core_u8_submitted core_u8_fetched)
    as (Hnum & Hmax & Haccept & Hreject).
  - by vm_compute.
  - simpl. lia.
  - simpl. lia.
  - exact H1.
  - exact H2.
  - exact H3.
  - split; [exact Hnum |].
    destruct (Haccept [call_bgr] call_bgr_loadable_again) as (c4 & Hrun & Hn).
    { simpl. lia. }
    exists c4. split; [exact Hrun |]. split; [exact Hn |].
    destruct (Hreject [call_bgr] c4 Hrun) as [_ Hfull].
    apply Hfull. reflexivity.
Defined.



Lemma enqueue_needs_bound_backend_witness :
  enqueue convert_u8 resize_nearest bgr_2x2 frame_loc float_one 0 input_data
          BaseInference_new = None.
Proof.
  apply (enqueue_needs_bound_backend convert_u8 resize_nearest execute_id
           parse_none).
  - simpl. lia.
  - reflexivity.
Defined.

Lemma Result_location_fixed_witness :
  getLocation (Result_new frame_loc) = frame_loc
  ∧ results_ (setMaxBatchSize 4 inference_u8) = results_ inference_u8.
Proof.
  split.
  - apply (Result_location_fixed convert_u8 resize_nearest execute_id
             parse_none).
  - apply (Result_location_fixed convert_u8 resize_nearest execute_id
             parse_none).
Defined.

(** ** The license-plate sequence *)

Lemma decode_upto_length (n : nat) (output : list Z) :
  (length (decode_upto n output) <= n)%nat.
Proof.
  revert output. induction n as [| n IH]; intros [| v rest]; simpl; try lia.
  case_bool_decide; simpl; [lia |]. specialize (IH rest). lia.
Qed.

Lemma decode_upto_first_sentinel (n k : nat) (output : list Z) :
  (k < n)%nat →
  output !! k = Some SENTINEL →
  (∀ j v, (j < k)%nat → output !! j = Some v → v ≠ SENTINEL) →
  decode_upto n output = take k output.
Proof.
  revert n output. induction k as [| k IH]; intros n output Hk Hat Hbefore.
  - destruct n as [| n]; [lia |]. destruct output as [| v rest]; [done |].
    simpl in *. simplify_eq. by rewrite bool_decide_eq_true_2.
  - destruct n as [| n]; [lia |]. destruct output as [| v rest]; [done |].
    simpl in *. rewrite bool_decide_eq_false_2.
    + f_equal. apply IH; [lia | done |].
      intros j w Hj Hw. apply (Hbefore (S j) w); [lia | done].
    + apply (Hbefore 0%nat v); [lia | done].
Qed.

(** C6: the declared maximum of the license-plate model is 88; an output
    whose sentinel, the first one, is at position [k] below the maximum
    decodes to its [k] entries before the sentinel, and no output decodes
    to more than the maximum. *)
Theorem decode_stops_at_sentinel (m : LicensePlateDetectionModel)
    (output : list Z) (k : nat) :
  Z.of_nat k < getMaxSequenceSize m →
  output !! k = Some SENTINEL →
  (∀ j v, (j < k)%nat → output !! j = Some v → v ≠ SENTINEL) →
  getMaxSequenceSize m = 88
  ∧ decode m output = take k output
  ∧ length (decode m output) = k
  ∧ ∀ output' : list Z,
      Z.of_nat (length (decode m output')) <= getMaxSequenceSize m.
Proof.
  intros Hk Hat Hbefore. split; [done |].
  assert (Hdec : decode m output = take k output).
  { unfold decode. apply decode_upto_first_sentinel; [lia | done | done]. }
  split; [done |]. split.
  - rewrite Hdec, length_take. apply lookup_lt_Some in Hat. lia.
  - intros output'. unfold decode.
    pose proof (decode_upto_length (Z.to_nat (getMaxSequenceSize m)) output').
    unfold getMaxSequenceSize, max_sequence_size_ in *. lia.
Qed.

Lemma decode_stops_at_sentinel_witness :
  decode plate_model [12; 34; 5; -1; 7; -1; -1] = take 3 [12; 34; 5; -1; 7; -1; -1].
Proof.
  apply (decode_stops_at_sentinel plate_model [12; 34; 5; -1; 7; -1; -1] 3).
  - by vm_compute.
  - reflexivity.
  - intros j v Hj Hv.
    destruct j as [| [| [| j]]]; simpl in Hv; [| | | lia];
      injection Hv as <-; by vm_compute.
Defined.

(** * Further properties of the frame loader *)

Lemma to_int_to_size_t p : is_int p → to_int (to_size_t p) = p.
Proof.
  unfold is_int, INT_MIN, INT_MAX, to_int, to_size_t, SIZE_WIDTH, INT_WIDTH.
  intros Hp. destruct (decide (0 <= p)) as [Hpos | Hneg].
  - rewrite (Z.mod_small p) by lia. rewrite Z.mod_small; lia.
  - replace (p mod 2 ^ 64) with (p + 2 ^ 64).
    + replace (p + 2 ^ 64 + 2 ^ 31) with (p + 2 ^ 31 + 2 ^ 32 * 2 ^ 32) by lia.
      rewrite Z_mod_plus_full. rewrite Z.mod_small; lia.
    + apply (Z.mod_unique _ _ (-1)); lia.
Qed.

Lemma batchOffset_int b W H C :
  is_int (b * W * H * C) → batchOffset b W H C = b * W * H * C.
Proof. intros Hp. rewrite batchOffset_mod. by apply to_int_to_size_t. Qed.

(** The position of a cell in its slot gives its channel, row and column
    back. *)
Lemma slot_decompose W H C j :
  0 < W → 0 < H → 0 <= j < C * W * H →
  0 <= j / (W * H) < C
  ∧ 0 <= (j mod (W * H)) / W < H
  ∧ 0 <= (j mod (W * H)) mod W < W
  ∧ j = j / (W * H) * W * H + (j mod (W * H)) / W * W + (j mod (W * H)) mod W.
Proof.
  intros HW HH Hj. assert (HWH : 0 < W * H) by nia.
  pose proof (Z.div_mod j (W * H) ltac:(lia)) as Hdm.
  pose proof (Z.mod_pos_bound j (W * H) HWH) as Hr.
  pose proof (Z.div_mod (j mod (W * H)) W ltac:(lia)) as Hdm'.
  pose proof (Z.mod_pos_bound (j mod (W * H)) W HW) as Hr'.
  assert (0 <= j / (W * H)) by (apply Z.div_pos; lia).
  assert (j / (W * H) < C) by (apply Z.div_lt_upper_bound; nia).
  assert (0 <= (j mod (W * H)) / W) by (apply Z.div_pos; lia).
  assert ((j mod (W * H)) / W < H) by (apply Z.div_lt_upper_bound; nia).
  repeat split; lia || nia.
Qed.

Section Pointwise.

Context {T : Type}.
Variable convert : float → option T.
Variable cv_resize : Mat → Z → Z → option Mat.

(** Two blobs of the same dimensions whose buffers agree everywhere are
    the same blob. *)
Lemma blob_ext (b1 b2 : Blob T) :
  dims b1 = dims b2 →
  (∀ j, 0 <= j → buffer b1 !! Z.to_nat j = buffer b2 !! Z.to_nat j) →
  b1 = b2.
Proof.
  destruct b1 as [d1 l1], b2 as [d2 l2]. simpl. intros -> Hbuf. f_equal.
  apply list_eq. intros i. specialize (Hbuf (Z.of_nat i) ltac:(lia)).
  by rewrite Nat2Z.id in Hbuf.
Qed.

(** The buffer after the loops, cell by cell. *)
Lemma fill_blob_pointwise image s b W H C (buf : list T) :
  fits convert image s b W H C (length buf) →
  ∃ buf',
    fill_blob convert image s (batchOffset b W H C) W H C buf = Some buf'
    ∧ length buf' = length buf
    ∧ ∀ j, 0 <= j →
        buf' !! Z.to_nat j
        = if bool_decide (b * W * H * C <= j < (b + 1) * W * H * C)
          then slot_value convert image s W H (j - b * W * H * C)
          else buf !! Z.to_nat j.
Proof.
  intros (Hok & H3 & Hrows & Hcols & HC & Hb & Hint & Hfit & Hconv).
  pose proof Hok as (Hr & Hc & _). unfold INT_MAX in *.
  assert (HWH : 0 <= W * H <= 2 ^ 31 * 2 ^ 31) by nia.
  assert (Hoff : batchOffset b W H C = b * W * H * C).
  { apply batchOffset_exact. unfold INT_MAX. nia. }
  rewrite Hoff.
  destruct (fill_blob_writes convert image s (b * W * H * C) W H C)
    with (buf := buf) as (buf' & Hrun & Hlen & HP & Hout).
  - nia.
  - lia.
  - lia.
  - lia.
  - unfold SIZE_WIDTH. nia.
  - intros c h w Hc' Hh Hw.
    destruct (pixel_value_source image s c h w Hok H3) as (px & Hpx & Hval);
      [lia | lia | lia |].
    unfold loaded. rewrite Hval. simpl. by eapply Hconv.
  - nia.
  - lia.
  - exists buf'. split; [done |]. split; [done |]. intros j Hj.
    case_bool_decide as Hin; [| apply Hout; [done | nia]].
    assert (HWpos : 0 < W) by nia. assert (HHpos : 0 < H) by nia.
    destruct (slot_decompose W H C (j - b * W * H * C) HWpos HHpos)
      as (Hc' & Hh & Hw & Hdec); [nia |].
    unfold slot_value.
    set (c := (j - b * W * H * C) / (W * H)) in *.
    set (h := (j - b * W * H * C) mod (W * H) / W) in *.
    set (w := ((j - b * W * H * C) mod (W * H)) mod W) in *.
    destruct (pixel_value_source image s c h w Hok H3) as (px & Hpx & Hval);
      [lia | lia | lia |].
    rewrite Hrows, Hcols in *. rewrite Hpx. simpl.
    destruct (Hconv c h w px Hc' Hh Hw Hpx) as [y Hy]. rewrite Hy.
    apply HP. exists c. split; [done |]. exists h. split; [done |].
    exists w. split; [done |]. split; [unfold cell; lia |].
    unfold loaded. rewrite Hval. by simpl.
Qed.

(** A frame of the size of the blob: no resize, and the blob cell by
    cell. *)
Lemma matU8ToBlob_pointwise image (blob : Blob T) s b n C H W :
  dims blob = [n; C; H; W] →
  fits convert image s b W H C (length (buffer blob)) →
  ∃ blob',
    matU8ToBlob convert cv_resize image blob s b = ([], Some blob')
    ∧ dims blob' = dims blob
    ∧ length (buffer blob') = length (buffer blob)
    ∧ ∀ j, 0 <= j →
        buffer blob' !! Z.to_nat j
        = if bool_decide (b * W * H * C <= j < (b + 1) * W * H * C)
          then slot_value convert image s W H (j - b * W * H * C)
          else buffer blob !! Z.to_nat j.
Proof.
  intros Hdims Hfits.
  destruct (fill_blob_pointwise image s b W H C (buffer blob) Hfits)
    as (buf' & Hrun & Hlen & Hpt).
  destruct Hfits as (Hok & _ & Hrows & Hcols & _).
  destruct Hok as (Hr & Hc & _).
  assert (Hsame : size_differs W H image = false).
  { by apply size_differs_false. }
  exists (mkBlob (dims blob) buf').
  unfold matU8ToBlob, resized_image. rewrite Hdims. simpl.
  rewrite Hsame. simpl. by rewrite Hrun.
Qed.

End Pointwise.

(** ** Scale factor 1.0 *)

Lemma convert_u8_one px :
  0 <= px <= 255 → convert_u8 (uchar_times px float_one) = Some px.
Proof.
  intros Hpx.
  assert (Hall : forallb
            (λ p, bool_decide (convert_u8 (uchar_times p float_one) = Some p))
            (seqZ 0 256) = true) by (by vm_compute).
  rewrite forallb_forall in Hall.
  assert (Hin : In px (seqZ 0 256)).
  { apply list_elem_of_In, elem_of_seqZ. lia. }
  apply Hall in Hin. by apply bool_decide_eq_true in Hin.
Qed.

Lemma uchar_times_one px :
  0 <= px <= 255 → uchar_times px float_one = float_of_int px.
Proof.
  intros Hpx.
  assert (Hall : forallb
            (λ p, bool_decide (uchar_times p float_one = float_of_int p))
            (seqZ 0 256) = true) by (by vm_compute).
  rewrite forallb_forall in Hall.
  assert (Hin : In px (seqZ 0 256)).
  { apply list_elem_of_In, elem_of_seqZ. lia. }
  apply Hall in Hin. by apply bool_decide_eq_true in Hin.
Qed.

Lemma source_pixel_byte image h w c px :
  bytes_ok image → source_pixel image h w c = Some px → 0 <= px <= 255.
Proof.
  unfold bytes_ok, source_pixel. intros Hall Hpx.
  rewrite Forall_forall in Hall. apply Hall.
  apply list_elem_of_lookup. eauto.
Qed.

Lemma cell_in_slot W H C c h w :
  0 <= c < C → 0 <= h < H → 0 <= w < W →
  0 <= c * W * H + h * W + w < C * W * H.
Proof.
  intros Hc Hh Hw.
  assert (h * W + w < H * W) by nia.
  assert (0 <= W * H) by nia.
  assert (c * (W * H) + W * H <= C * (W * H)) by nia.
  nia.
Qed.

(** The cell of channel [c], row [h], column [w] has the value of that
    pixel component. *)
Lemma slot_value_cell {T : Type} (convert : float → option T) image s W H c h w :
  0 <= c → 0 <= h < H → 0 <= w < W →
  slot_value convert image s W H (c * W * H + h * W + w)
  = px ← source_pixel image h w c; convert (uchar_times px s).
Proof.
  intros Hc Hh Hw. unfold slot_value.
  assert (Hdiv : (c * W * H + h * W + w) / (W * H) = c).
  { symmetry. apply (Z.div_unique _ _ _ (h * W + w)); [nia | lia]. }
  assert (Hmod : (c * W * H + h * W + w) mod (W * H) = h * W + w).
  { symmetry. apply (Z.mod_unique _ _ c); [nia | lia]. }
  rewrite Hdiv, Hmod.
  replace ((h * W + w) / W) with h
    by (apply (Z.div_unique _ _ _ w); [lia | lia]).
  replace ((h * W + w) mod W) with w
    by (apply (Z.mod_unique _ _ h); [lia | lia]).
  done.
Qed.

(** X1: with the default scale factor 1.0 a 3-channel 8-bit frame of the
    size of the blob is copied without loss: into an 8-bit blob every
    cell receives the byte of its pixel component, into a float blob the
    float of that byte, whatever the bytes are. *)
Theorem matU8ToBlob_scale_one_is_exact cv_resize image b n C H W :
  Mat_ok image → is_8bit_3channel image → bytes_ok image →
  rows image = H → cols image = W → 0 <= C <= 3 →
  0 <= b → b * W * H * C <= INT_MAX →
  (∀ blob : Blob Z,
     dims blob = [n; C; H; W] →
     (b + 1) * W * H * C <= Z.of_nat (length (buffer blob)) →
     ∃ blob',
       matU8ToBlob convert_u8 cv_resize image blob float_one b
         = ([], Some blob')
       ∧ ∀ c h w, 0 <= c < C → 0 <= h < H → 0 <= w < W →
           is_Some (source_pixel image h w c)
           ∧ buffer blob' !! Z.to_nat (b * W * H * C + c * W * H + h * W + w)
             = source_pixel image h w c)
  ∧ (∀ blob : Blob float,
       dims blob = [n; C; H; W] →
       (b + 1) * W * H * C <= Z.of_nat (length (buffer blob)) →
       ∃ blob',
         matU8ToBlob convert_float cv_resize image blob float_one b
           = ([], Some blob')
         ∧ ∀ c h w, 0 <= c < C → 0 <= h < H → 0 <= w < W →
             is_Some (source_pixel image h w c)
             ∧ buffer blob' !! Z.to_nat (b * W * H * C + c * W * H + h * W + w)
               = float_of_int <$> source_pixel image h w c).
Proof.
  intros Hok H3 Hbytes Hrows Hcols HC Hb Hint.
  assert (HWH : 0 <= W ∧ 0 <= H) by (destruct Hok as (? & ? & _); lia).
  assert (Hsrc : ∀ c h w, 0 <= c < C → 0 <= h < H → 0 <= w < W →
            ∃ px, source_pixel image h w c = Some px ∧ 0 <= px <= 255).
  { intros c h w Hc Hh Hw.
    destruct (pixel_value_source image float_one c h w Hok H3)
      as (px & Hpx & _); [lia | lia | lia |].
    exists px. split; [done |]. by eapply source_pixel_byte. }
  split.
  - intros blob Hdims Hfit.
    destruct (matU8ToBlob_pointwise convert_u8 cv_resize image blob
                float_one b n C H W Hdims) as (blob' & Hrun & _ & _ & Hpt).
    { do 8 (split; [done || lia |]). intros c h w px _ _ _ Hpx.
      rewrite convert_u8_one; [by eexists | by eapply source_pixel_byte]. }
    exists blob'. split; [done |]. intros c h w Hc Hh Hw.
    destruct (Hsrc c h w Hc Hh Hw) as (px & Hpx & Hbyte).
    split; [by rewrite Hpx |].
    pose proof (cell_in_slot W H C c h w Hc Hh Hw) as Hcell.
    rewrite Hpt by nia. rewrite bool_decide_eq_true_2 by nia.
    replace (b * W * H * C + c * W * H + h * W + w - b * W * H * C)
      with (c * W * H + h * W + w) by lia.
    rewrite slot_value_cell by lia. rewrite Hpx. simpl.
    by apply convert_u8_one.
  - intros blob Hdims Hfit.
    destruct (matU8ToBlob_pointwise convert_float cv_resize image blob
                float_one b n C H W Hdims) as (blob' & Hrun & _ & _ & Hpt).
    { do 8 (split; [done || lia |]). intros c h w px _ _ _ Hpx. by eexists. }
    exists blob'. split; [done |]. intros c h w Hc Hh Hw.
    destruct (Hsrc c h w Hc Hh Hw) as (px & Hpx & Hbyte).
    split; [by rewrite Hpx |].
    pose proof (cell_in_slot W H C c h w Hc Hh Hw) as Hcell.
    rewrite Hpt by nia. rewrite bool_decide_eq_true_2 by nia.
    replace (b * W * H * C + c * W * H + h * W + w - b * W * H * C)
      with (c * W * H + h * W + w) by lia.
    rewrite slot_value_cell by lia. rewrite Hpx. simpl.
    unfold convert_float. by rewrite uchar_times_one.
Qed.

(** ** Loads one after the other *)

Section Composition.

Context {T : Type}.
Variable convert : float → option T.
Variable cv_resize : Mat → Z → Z → option Mat.


(** A second load at the batch index of a first one. *)
Lemma load_over_load image1 image2 (blob : Blob T)
    s1 s2 b n C H W :
  dims blob = [n; C; H; W] →
  fits convert image1 s1 b W H C (length (buffer blob)) →
  fits convert image2 s2 b W H C (length (buffer blob)) →
  ∃ blob1 blob2,
    (matU8ToBlob convert cv_resize image1 blob s1 b).2 = Some blob1
    ∧ (matU8ToBlob convert cv_resize image2 blob1 s2 b).2 = Some blob2
    ∧ (matU8ToBlob convert cv_resize image2 blob s2 b).2 = Some blob2.
Proof.
  intros Hdims Hfit1 Hfit2.
  destruct (matU8ToBlob_pointwise convert cv_resize image1 blob s1 b n C H W
              Hdims Hfit1) as (blob1 & Hrun1 & Hd1 & Hl1 & Hpt1).
  destruct (matU8ToBlob_pointwise convert cv_resize image2 blob1 s2 b n C H W)
    as (blob2 & Hrun2 & Hd2 & Hl2 & Hpt2); [congruence | by rewrite Hl1 |].
  destruct (matU8ToBlob_pointwise convert cv_resize image2 blob s2 b n C H W
              Hdims Hfit2) as (blob2' & Hrun2' & Hd2' & Hl2' & Hpt2').
  exists blob1, blob2. rewrite Hrun1, Hrun2, Hrun2'. simpl.
  split; [done |]. split; [done |]. f_equal. apply blob_ext; [congruence |].
  intros j Hj. rewrite Hpt2, Hpt2' by done.
  case_bool_decide as Hin; [done |].
  rewrite Hpt1 by done. by rewrite bool_decide_eq_false_2.
Qed.

(** Two loads at different batch indices, in either order. *)
Lemma load_two_slots image1 image2 (blob : Blob T)
    s1 s2 b1 b2 n C H W :
  dims blob = [n; C; H; W] →
  b1 ≠ b2 →
  fits convert image1 s1 b1 W H C (length (buffer blob)) →
  fits convert image2 s2 b2 W H C (length (buffer blob)) →
  ∃ blob1 blob2 blob12,
    (matU8ToBlob convert cv_resize image1 blob s1 b1).2 = Some blob1
    ∧ (matU8ToBlob convert cv_resize image2 blob1 s2 b2).2 = Some blob12
    ∧ (matU8ToBlob convert cv_resize image2 blob s2 b2).2 = Some blob2
    ∧ (matU8ToBlob convert cv_resize image1 blob2 s1 b1).2 = Some blob12
    ∧ ∀ j, 0 <= j →
        buffer blob12 !! Z.to_nat j
        = if bool_decide (b1 * W * H * C <= j < (b1 + 1) * W * H * C)
          then slot_value convert image1 s1 W H (j - b1 * W * H * C)
          else if bool_decide (b2 * W * H * C <= j < (b2 + 1) * W * H * C)
          then slot_value convert image2 s2 W H (j - b2 * W * H * C)
          else buffer blob !! Z.to_nat j.
Proof.
  intros Hdims Hne Hfit1 Hfit2.
  destruct (matU8ToBlob_pointwise convert cv_resize image1 blob s1 b1 n C H W
              Hdims Hfit1) as (blob1 & Hrun1 & Hd1 & Hl1 & Hpt1).
  destruct (matU8ToBlob_pointwise convert cv_resize image2 blob s2 b2 n C H W
              Hdims Hfit2) as (blob2 & Hrun2 & Hd2 & Hl2 & Hpt2).
  destruct (matU8ToBlob_pointwise convert cv_resize image2 blob1 s2 b2 n C H W)
    as (blob12 & Hrun12 & Hd12 & Hl12 & Hpt12);
    [congruence | by rewrite Hl1 |].
  destruct (matU8ToBlob_pointwise convert cv_resize image1 blob2 s1 b1 n C H W)
    as (blob21 & Hrun21 & Hd21 & Hl21 & Hpt21);
    [congruence | by rewrite Hl2 |].
  assert (Hdisj : ∀ j, b1 * W * H * C <= j < (b1 + 1) * W * H * C →
                       b2 * W * H * C <= j < (b2 + 1) * W * H * C → False).
  { intros j Hj1 Hj2.
    destruct (Z.lt_total b1 b2) as [Hlt | [Heq | Hgt]]; [| done |].
    - assert ((b1 + 1) * (W * H * C) <= b2 * (W * H * C)) by nia. nia.
    - assert ((b2 + 1) * (W * H * C) <= b1 * (W * H * C)) by nia. nia. }
  assert (Hpt : ∀ j, 0 <= j →
            buffer blob12 !! Z.to_nat j
            = if bool_decide (b1 * W * H * C <= j < (b1 + 1) * W * H * C)
              then slot_value convert image1 s1 W H (j - b1 * W * H * C)
              else if bool_decide (b2 * W * H * C <= j < (b2 + 1) * W * H * C)
              then slot_value convert image2 s2 W H (j - b2 * W * H * C)
              else buffer blob !! Z.to_nat j).
  { intros j Hj. rewrite Hpt12 by done.
    case_bool_decide as Hin2.
    - rewrite bool_decide_eq_false_2; [done |]. intros Hin1. by eapply Hdisj.
    - rewrite Hpt1 by done. by case_bool_decide. }
  exists blob1, blob2, blob12. rewrite Hrun1, Hrun2, Hrun12, Hrun21. simpl.
  split; [done |]. split; [done |]. split; [done |]. split; [| exact Hpt].
  f_equal. apply blob_ext; [congruence |].
  intros j Hj. rewrite Hpt, Hpt21 by done.
  case_bool_decide as Hin1; [done |]. by rewrite Hpt2.
Qed.

(** X2: a load into a slot replaces whatever an earlier load left there:
    loading a second frame at the batch index of a first one gives the
    blob that loading the second frame alone gives; in particular a frame
    loaded twice is loaded once. *)
Theorem matU8ToBlob_last_load_wins image1 image2 (blob : Blob T)
    s1 s2 b n C H W :
  dims blob = [n; C; H; W] →
  fits convert image1 s1 b W H C (length (buffer blob)) →
  fits convert image2 s2 b W H C (length (buffer blob)) →
  ∃ blob1 blob2,
    (matU8ToBlob convert cv_resize image1 blob s1 b).2 = Some blob1
    ∧ (matU8ToBlob convert cv_resize image2 blob1 s2 b).2 = Some blob2
    ∧ (matU8ToBlob convert cv_resize image2 blob s2 b).2 = Some blob2.
Proof.
  intros Hdims Hfit1 Hfit2.
  destruct (matU8ToBlob_pointwise convert cv_resize image1 blob s1 b n C H W
              Hdims Hfit1) as (blob1 & Hrun1 & Hd1 & Hl1 & Hpt1).
  destruct (matU8ToBlob_pointwise convert cv_resize image2 blob1 s2 b n C H W)
    as (blob2 & Hrun2 & Hd2 & Hl2 & Hpt2); [congruence | by rewrite Hl1 |].
  destruct (matU8ToBlob_pointwise convert cv_resize image2 blob s2 b n C H W
              Hdims Hfit2) as (blob2' & Hrun2' & Hd2' & Hl2' & Hpt2').
  exists blob1, blob2. rewrite Hrun1, Hrun2, Hrun2'. simpl.
  split; [done |]. split; [done |]. f_equal. apply blob_ext; [congruence |].
  intros j Hj. rewrite Hpt2, Hpt2' by done.
  case_bool_decide as Hin; [done |].
  rewrite Hpt1 by done. by rewrite bool_decide_eq_false_2.
Qed.

(** X3: loads into different slots do not disturb each other: in either
    order two frames loaded at different batch indices give the same
    blob, whose two slots hold the two frames and whose other cells are
    those of the blob before. *)
Theorem matU8ToBlob_slots_independent image1 image2 (blob : Blob T)
    s1 s2 b1 b2 n C H W :
  dims blob = [n; C; H; W] →
  b1 ≠ b2 →
  fits convert image1 s1 b1 W H C (length (buffer blob)) →
  fits convert image2 s2 b2 W H C (length (buffer blob)) →
  ∃ blob1 blob2 blob12,
    (matU8ToBlob convert cv_resize image1 blob s1 b1).2 = Some blob1
    ∧ (matU8ToBlob convert cv_resize image2 blob1 s2 b2).2 = Some blob12
    ∧ (matU8ToBlob convert cv_resize image2 blob s2 b2).2 = Some blob2
    ∧ (matU8ToBlob convert cv_resize image1 blob2 s1 b1).2 = Some blob12
    ∧ ∀ j, 0 <= j →
        buffer blob12 !! Z.to_nat j
        = if bool_decide (b1 * W * H * C <= j < (b1 + 1) * W * H * C)
          then slot_value convert image1 s1 W H (j - b1 * W * H * C)
          else if bool_decide (b2 * W * H * C <= j < (b2 + 1) * W * H * C)
          then slot_value convert image2 s2 W H (j - b2 * W * H * C)
          else buffer blob !! Z.to_nat j.
Proof.
  intros Hdims Hne Hfit1 Hfit2.
  destruct (matU8ToBlob_pointwise convert cv_resize image1 blob s1 b1 n C H W
              Hdims Hfit1) as (blob1 & Hrun1 & Hd1 & Hl1 & Hpt1).
  destruct (matU8ToBlob_pointwise convert cv_resize image2 blob s2 b2 n C H W
              Hdims Hfit2) as (blob2 & Hrun2 & Hd2 & Hl2 & Hpt2).
  destruct (matU8ToBlob_pointwise convert cv_resize image2 blob1 s2 b2 n C H W)
    as (blob12 & Hrun12 & Hd12 & Hl12 & Hpt12);
    [congruence | by rewrite Hl1 |].
  destruct (matU8ToBlob_pointwise convert cv_resize image1 blob2 s1 b1 n C H W)
    as (blob21 & Hrun21 & Hd21 & Hl21 & Hpt21);
    [congruence | by rewrite Hl2 |].
  assert (Hdisj : ∀ j, b1 * W * H * C <= j < (b1 + 1) * W * H * C →
                       b2 * W * H * C <= j < (b2 + 1) * W * H * C → False).
  { intros j Hj1 Hj2.
    destruct (Z.lt_total b1 b2) as [Hlt | [Heq | Hgt]]; [| done |].
    - assert ((b1 + 1) * (W * H * C) <= b2 * (W * H * C)) by nia. nia.
    - assert ((b2 + 1) * (W * H * C) <= b1 * (W * H * C)) by nia. nia. }
  assert (Hpt : ∀ j, 0 <= j →
            buffer blob12 !! Z.to_nat j
            = if bool_decide (b1 * W * H * C <= j < (b1 + 1) * W * H * C)
              then slot_value convert image1 s1 W H (j - b1 * W * H * C)
              else if bool_decide (b2 * W * H * C <= j < (b2 + 1) * W * H * C)
              then slot_value convert image2 s2 W H (j - b2 * W * H * C)
              else buffer blob !! Z.to_nat j).
  { intros j Hj. rewrite Hpt12 by done.
    case_bool_decide as Hin2.
    - rewrite bool_decide_eq_false_2; [done |]. intros Hin1. by eapply Hdisj.
    - rewrite Hpt1 by done. by case_bool_decide. }
  exists blob1, blob2, blob12. rewrite Hrun1, Hrun2, Hrun12, Hrun21. simpl.
  split; [done |]. split; [done |]. split; [done |]. split; [| exact Hpt].
  f_equal. apply blob_ext; [congruence |].
  intros j Hj. rewrite Hpt, Hpt21 by done.
  case_bool_decide as Hin1; [done |]. by rewrite Hpt2.
Qed.

(** X4: when the size of the frame is not that of the blob, the blob
    receives the pixels of the image [cv::resize] gives back and none of
    the frame's own: one resize call is made with the blob's width and
    height, each cell of the slot holds the scaled component of the
    resized image, and the cells outside the slot keep their values. When
    the resize throws, the load is a fault. *)
Theorem matU8ToBlob_loads_the_resized_image image image' (blob : Blob T)
    s b n C H W :
  dims blob = [n; C; H; W] →
  0 <= rows image <= INT_MAX → 0 <= cols image <= INT_MAX →
  ¬ (cols image = W ∧ rows image = H) →
  (cv_resize image (to_int W) (to_int H) = None →
   matU8ToBlob convert cv_resize image blob s b = ([(image, to_int W, to_int H)], None))
  ∧ (cv_resize image (to_int W) (to_int H) = Some image' →
     fits convert image' s b W H C (length (buffer blob)) →
     ∃ blob',
       matU8ToBlob convert cv_resize image blob s b = ([(image, to_int W, to_int H)], Some blob')
       ∧ dims blob' = dims blob
       ∧ (∀ c h w, 0 <= c < C → 0 <= h < H → 0 <= w < W →
            ∃ px, source_pixel image' h w c = Some px
              ∧ buffer blob' !! Z.to_nat (b * W * H * C + c * W * H + h * W + w)
                = convert (uchar_times px s))
       ∧ (∀ j, 0 <= j → ¬ (b * W * H * C <= j < (b + 1) * W * H * C) →
            buffer blob' !! Z.to_nat j = buffer blob !! Z.to_nat j)).
Proof.
  intros Hdims Hr Hc Hne.
  assert (Hdiff : size_differs W H image = true).
  { destruct (size_differs W H image) eqn:Hd; [done |].
    by apply size_differs_false in Hd. }
  split.
  - intros Hthrow. unfold matU8ToBlob, resized_image.
    rewrite Hdims. simpl. by rewrite Hdiff, Hthrow.
  - intros Hres Hfits.
    destruct (fill_blob_pointwise convert image' s b W H C (buffer blob) Hfits)
      as (buf' & Hrun & Hlen & Hpt).
    exists (mkBlob (dims blob) buf').
    split.
    { unfold matU8ToBlob, resized_image. rewrite Hdims. simpl.
      rewrite Hdiff, Hres. simpl. by rewrite Hrun. }
    split; [done |]. simpl.
    destruct Hfits as (Hok & H3 & Hrows & Hcols & HC & Hb & _ & _ & Hconv).
    assert (HWH : 0 <= W ∧ 0 <= H) by (destruct Hok as (? & ? & _); lia).
    split.
    + intros c h w Hc' Hh Hw.
      destruct (pixel_value_source image' s c h w Hok H3) as (px & Hpx & _);
        [lia | lia | lia |].
      exists px. split; [done |].
      pose proof (cell_in_slot W H C c h w Hc' Hh Hw) as Hcell.
      rewrite Hpt by nia. rewrite bool_decide_eq_true_2 by nia.
      replace (b * W * H * C + c * W * H + h * W + w - b * W * H * C)
        with (c * W * H + h * W + w) by lia.
      rewrite slot_value_cell by lia. by rewrite Hpx.
    + intros j Hj Hout. rewrite Hpt by done.
      by rewrite bool_decide_eq_false_2.
Qed.

(** X5: a load that is defined keeps the dimensions of the blob and the
    length of its buffer, and whether a load is defined depends on the
    blob through these only, not through what the buffer holds. *)
Theorem matU8ToBlob_shape_invariant frame (blob blob' : Blob T) s b :
  (matU8ToBlob convert cv_resize frame blob s b).2 = Some blob' →
  dims blob' = dims blob
  ∧ length (buffer blob') = length (buffer blob)
  ∧ ∀ other : Blob T,
      dims other = dims blob →
      length (buffer other) = length (buffer blob) →
      is_Some (matU8ToBlob convert cv_resize frame other s b).2.
Proof.
  intros Hrun.
  pose proof (matU8ToBlob_keeps_shape convert cv_resize _ _ _ _ _ Hrun) as Hs.
  unfold blob_shape in Hs. injection Hs as Hd Hl.
  split; [done |]. split; [done |]. intros other Hdo Hlo.
  apply (matU8ToBlob_shape_only convert cv_resize frame blob other).
  - unfold blob_shape. by rewrite Hdo, Hlo.
  - by rewrite Hrun.
Qed.

End Composition.

(** ** Bounds *)

(** A loop that succeeded ran each iteration on a state with the value of
    any quantity the iterations keep. *)
Lemma for_each_Some_body_keeps {S : Type} (f : S → nat) (idx : list Z)
    (body : Z → S → option S) (s s' : S) (i : Z) :
  (∀ i s s', body i s = Some s' → f s' = f s) →
  for_each idx body s = Some s' → i ∈ idx →
  ∃ s1, f s1 = f s ∧ is_Some (body i s1).
Proof.
  intros Hkeep. revert s. induction idx as [| a idx IH]; intros s Hrun Hin.
  - by apply elem_of_nil in Hin.
  - simpl in Hrun. destruct (body a s) as [s1 |] eqn:Ha; [| done].
    apply elem_of_cons in Hin as [-> | Hin].
    + exists s. split; [done |]. by rewrite Ha.
    + destruct (IH s1 Hrun Hin) as (s2 & Hf & Hs2). exists s2.
      split; [| done]. rewrite Hf. by eapply Hkeep.
Qed.

(** A loop whose iterations leave the state alone leaves it alone. *)
Lemma for_each_skip {S : Type} (idx : list Z) (body : Z → S → option S) (s : S) :
  (∀ i, i ∈ idx → body i s = Some s) → for_each idx body s = Some s.
Proof.
  induction idx as [| a idx IH]; intros Hbody; simpl; [done |].
  rewrite Hbody by (by left). apply IH. intros i Hi. apply Hbody. by right.
Qed.

(** Every cell a defined load wrote was inside the buffer. *)
Lemma fill_blob_in_bounds {T : Type} (convert : float → option T)
    image s offset W H C (buf buf' : list T) c h w :
  fill_blob convert image s offset W H C buf = Some buf' →
  0 <= c < C → 0 <= h < H → 0 <= w < W →
  0 <= blob_index offset W H c h w < Z.of_nat (length buf).
Proof.
  intros Hfill Hc Hh Hw. unfold fill_blob in Hfill.
  destruct (for_each_Some_body_keeps length _ _ _ _ c
              ltac:(intros c0; apply (for_each_keeps length); intros h0;
                    apply (for_each_keeps length); intros w0;
                    apply store_pixel_keeps_length) Hfill)
    as (s1 & Hl1 & s1' & Hplane); [apply elem_of_seqZ; lia |].
  destruct (for_each_Some_body_keeps length _ _ _ _ h
              ltac:(intros h0; apply (for_each_keeps length); intros w0;
                    apply store_pixel_keeps_length) Hplane)
    as (s2 & Hl2 & s2' & Hrow); [apply elem_of_seqZ; lia |].
  destruct (for_each_Some_body_keeps length _ _ _ _ w
              ltac:(intros w0; apply store_pixel_keeps_length) Hrow)
    as (s3 & Hl3 & s3' & Hst); [apply elem_of_seqZ; lia |].
  unfold store_pixel, blob_store in Hst.
  destruct (pixel_value image s c h w) as [x |]; [| done]. simpl in Hst.
  destruct (convert x) as [y |]; [| done]. simpl in Hst.
  case_bool_decide as Hin; [| done]. lia.
Qed.

(** X6: the batch index is not checked, and a load outside the buffer is
    a fault: a load into a blob with at least one cell that is defined,
    its offset [b * width * height * channels] being an [int], has
    [b >= 0] and its whole slot inside the buffer. *)
Theorem matU8ToBlob_defined_within_buffer {T : Type}
    (convert : float → option T) cv_resize image (blob : Blob T)
    s b n C H W :
  dims blob = [n; C; H; W] →
  0 < W → 0 < H → 0 < C →
  is_int (b * W * H * C) →
  C * W * H < 2 ^ 62 →
  Z.of_nat (length (buffer blob)) < 2 ^ 62 →
  is_Some (matU8ToBlob convert cv_resize image blob s b).2 →
  0 <= b ∧ (b + 1) * W * H * C <= Z.of_nat (length (buffer blob)).
Proof.
  intros Hdims HW HH HC Hint Hsize Hlen [blob' Hrun].
  unfold matU8ToBlob in Hrun. rewrite Hdims in Hrun. simpl in Hrun.
  destruct (resized_image cv_resize W H image) as [calls [img |]];
    simpl in Hrun; [| done].
  rewrite (batchOffset_int _ _ _ _ Hint) in Hrun.
  destruct (fill_blob convert img s (b * W * H * C) W H C (buffer blob))
    as [buf' |] eqn:Hfill; [| done].
  pose proof (fill_blob_in_bounds _ _ _ _ _ _ _ _ _ 0 0 0 Hfill
                ltac:(lia) ltac:(lia) ltac:(lia)) as Hfirst.
  pose proof (fill_blob_in_bounds _ _ _ _ _ _ _ _ _ (C - 1) (H - 1) (W - 1)
                Hfill ltac:(lia) ltac:(lia) ltac:(lia)) as Hlast.
  rewrite blob_index_mod in Hfirst, Hlast.
  unfold is_int, INT_MIN, INT_MAX in Hint.
  assert (Hb : 0 <= b).
  { destruct (decide (0 <= b)) as [| Hneg]; [done |]. exfalso.
    assert (Hp : b * W * H * C < 0) by nia.
    replace (to_size_t (b * W * H * C + 0 * W * H + 0 * W + 0))
      with (b * W * H * C + 2 ^ 64) in Hfirst; [lia |].
    unfold to_size_t, SIZE_WIDTH. apply (Z.mod_unique _ _ (-1)); lia. }
  split; [done |].
  assert (Hp : 0 <= b * W * H * C) by nia.
  rewrite to_size_t_small in Hlast; [nia |].
  unfold is_size_t, SIZE_WIDTH. nia.
Qed.

(** X7: line 55 keeps the low 32 bits of the offset: the value stored is
    an [int] congruent to [b * width * height * channels] modulo 2^32,
    and it is that product exactly when the product is an [int]; so two
    batch indices whose offsets differ by a multiple of 2^32 are given
    the same offset. *)
Theorem batchOffset_keeps_low_32_bits b W H C :
  is_int (batchOffset b W H C)
  ∧ (batchOffset b W H C - b * W * H * C) mod 2 ^ 32 = 0
  ∧ (batchOffset b W H C = b * W * H * C ↔ is_int (b * W * H * C))
  ∧ ∀ b' k, b' * W * H * C = b * W * H * C + k * 2 ^ 32 →
      batchOffset b' W H C = batchOffset b W H C.
Proof.
  assert (Hform : ∀ p, to_int (to_size_t p) = (p + 2 ^ 31) mod 2 ^ 32 - 2 ^ 31).
  { intros p. unfold to_int, to_size_t, SIZE_WIDTH, INT_WIDTH.
    f_equal. rewrite <- (Zplus_mod_idemp_l (p mod 2 ^ 64)).
    rewrite (Z.mod_mod_divide p (2 ^ 64) (2 ^ 32)) by (exists (2 ^ 32); lia).
    by rewrite Zplus_mod_idemp_l. }
  rewrite !batchOffset_mod, Hform.
  pose proof (Z.mod_pos_bound (b * W * H * C + 2 ^ 31) (2 ^ 32) ltac:(lia))
    as Hbound.
  pose proof (Z.div_mod (b * W * H * C + 2 ^ 31) (2 ^ 32) ltac:(lia)) as Hdm.
  split; [unfold is_int, INT_MIN, INT_MAX; lia |]. split; [| split].
  - replace ((b * W * H * C + 2 ^ 31) mod 2 ^ 32 - 2 ^ 31 - b * W * H * C)
      with ((- ((b * W * H * C + 2 ^ 31) / 2 ^ 32)) * 2 ^ 32) by lia.
    apply Z_mod_mult.
  - unfold is_int, INT_MIN, INT_MAX. split; [lia |].
    intros Hint. rewrite Z.mod_small; lia.
  - intros b' k Hk. rewrite batchOffset_mod, Hform, Hk.
    replace (b * W * H * C + k * 2 ^ 32 + 2 ^ 31)
      with (b * W * H * C + 2 ^ 31 + k * 2 ^ 32) by lia.
    by rewrite Z_mod_plus_full.
Qed.

(** X8: a blob that declares no channel, no row or no column takes any
    frame of its size, at any batch index and of any type: no pixel is
    read, nothing is written, and the blob is returned as it was. *)
Theorem matU8ToBlob_empty_blob {T : Type} (convert : float → option T)
    cv_resize image (blob : Blob T) s b n C H W :
  dims blob = [n; C; H; W] →
  0 <= rows image <= INT_MAX → 0 <= cols image <= INT_MAX →
  cols image = W → rows image = H →
  C <= 0 ∨ H <= 0 ∨ W <= 0 →
  matU8ToBlob convert cv_resize image blob s b = ([], Some blob).
Proof.
  intros Hdims Hr Hc Hcols Hrows Hempty.
  assert (Hsame : size_differs W H image = false).
  { by apply size_differs_false. }
  unfold matU8ToBlob, resized_image. rewrite Hdims. simpl. rewrite Hsame.
  simpl. unfold fill_blob.
  rewrite for_each_skip.
  - destruct blob as [d l]. simpl in *. by subst.
  - intros c Hc'. apply for_each_skip. intros h Hh. apply for_each_skip.
    intros w Hw. unfold upto in *.
    apply elem_of_seqZ in Hc', Hh, Hw. lia.
Qed.

(** * Further properties of the engine *)

Section EngineMore.

Context {T : Type}.
Variable convert : float → option T.
Variable cv_resize : Mat → Z → Z → option Mat.

Implicit Types (st : BaseInference T) (k : Call).


(** X9: the capacity test of line 159 is an equality: a call is refused
    exactly when the count equals the capacity, and the engine is then
    unchanged. An engine whose count is above its capacity (the capacity
    was lowered, or is negative) never refuses a call, and every call it
    accepts leaves the count above the capacity. *)
Theorem enqueue_refuses_at_equality_only frame loc s b name st :
  (∀ st', enqueue convert cv_resize frame loc s b name st = Some (false, st') ↔
          enqueued_frames st = max_batch_size_ st ∧ st' = st)
  ∧ (max_batch_size_ st < enqueued_frames st →
     ∀ flag st', enqueue convert cv_resize frame loc s b name st = Some (flag, st') →
       flag = true ∧ max_batch_size_ st' < enqueued_frames st').
Proof.
  split.
  - intros st'. split.
    + intros Hrun. by apply enqueue_false_inv in Hrun as [-> ?].
    + intros [Hfull ->]. by apply enqueue_at_capacity.
  - intros Habove [] st' Hrun.
    + split; [done |]. apply enqueue_true_iff in Hrun
        as (_ & req & blob & blob' & _ & _ & _ & _ & ->). simpl. lia.
    + apply enqueue_false_inv in Hrun as [_ Hfull]. lia.
Qed.

(** X10: an accepted call changes the contents of the blob it names and
    nothing else of the backend: every other blob of the request is the
    one it was, the request has the same blob names, and every blob, the
    written one included, has the dimensions and the buffer length it
    had. *)
Theorem enqueue_touches_one_blob frame loc s b name st st' :
  enqueue convert cv_resize frame loc s b name st = Some (true, st') →
  ∃ req req',
    request_of st = Some req ∧ request_of st' = Some req'
    ∧ (∀ name', name' ≠ name → req' !! name' = req !! name')
    ∧ dom req' = dom req
    ∧ blob_shape <$> req' = blob_shape <$> req.
Proof.
  intros Hrun. apply enqueue_true_iff in Hrun
    as (_ & req & blob & blob' & Hreq & Hblob & Hload & _ & ->).
  apply matU8ToBlob_keeps_shape in Hload.
  exists req, (<[name := blob']> req). split; [done |]. split; [done |].
  split; [| split].
  - intros name' Hne. by rewrite lookup_insert_ne.
  - by apply dom_insert_lookup_L.
  - rewrite fmap_insert, Hload. apply insert_id.
    by rewrite lookup_fmap, Hblob.
Qed.

(** X11: below the capacity a call faults exactly when the backend cannot
    take its frame: no engine or no request is bound, the request has no
    blob named [input_name], or the conversion into that blob is not
    defined. *)
Theorem enqueue_faults_iff_not_loadable k st :
  enqueued_frames st < max_batch_size_ st →
  is_int (max_batch_size_ st) →
  enqueue_call convert cv_resize k st = None ↔ ¬ loadable convert cv_resize st k.
Proof.
  intros Hbelow Hint. unfold is_int in Hint. split.
  - intros Hnone (req & blob & Hreq & Hblob & [blob' Hload]).
    assert (Hsome : enqueue_call convert cv_resize k st
                    = Some (true, set_blob st (call_input k) blob' req
                                    (enqueued_frames st + 1))).
    { apply enqueue_true_iff. split; [lia |]. exists req, blob, blob'.
      do 3 (split; [done |]). split; [lia | done]. }
    congruence.
  - intros Hnot. destruct (enqueue_call convert cv_resize k st) as [[[] st'] |] eqn:Hrun; [| | done].
    + exfalso. apply Hnot. unfold enqueue_call in Hrun.
      apply enqueue_true_iff in Hrun
        as (_ & req & blob & blob' & Hreq & Hblob & Hload & _).
      exists req, blob. by rewrite Hload.
    + unfold enqueue_call in Hrun.
      apply enqueue_false_inv in Hrun as [_ Hfull]. lia.
Qed.

(** Once the batch is full every call is refused. *)
Lemma enqueue_seq_full (calls : list Call) st :
  enqueued_frames st = max_batch_size_ st →
  enqueue_seq convert cv_resize calls st = Some (replicate (length calls) false, st).
Proof.
  intros Hfull. induction calls as [| k calls IH]; simpl; [done |].
  unfold enqueue_call. rewrite (enqueue_at_capacity _ _ _ _ _ _ _ _ Hfull).
  by rewrite IH.
Qed.

(** X12: in a run of enqueue calls none of which faults, the accepted
    calls come first and the refused ones after them: once a call is
    refused every later one is. The count grows by the number of accepted
    calls and stays within the capacity, and when a call was refused the
    count is the capacity. *)
Theorem enqueue_seq_accepts_then_refuses (calls : list Call) st flags st' :
  enqueued_frames st <= max_batch_size_ st →
  enqueue_seq convert cv_resize calls st = Some (flags, st') →
  ∃ j : nat,
    (j <= length calls)%nat
    ∧ flags = replicate j true ++ replicate (length calls - j) false
    ∧ enqueued_frames st' = enqueued_frames st + Z.of_nat j
    ∧ enqueued_frames st' <= max_batch_size_ st'
    ∧ max_batch_size_ st' = max_batch_size_ st
    ∧ ((j < length calls)%nat → enqueued_frames st' = max_batch_size_ st').
Proof.
  revert st flags st'.
  induction calls as [| k calls IH]; intros st flags st' Hle Hrun;
    simpl in Hrun.
  - simplify_eq. exists 0%nat. simpl. repeat split; lia || done.
  - destruct (enqueue_call convert cv_resize k st) as [[flag st1] |] eqn:Hk; [| done].
    destruct (enqueue_seq convert cv_resize calls st1) as [[flags1 st2] |] eqn:Hrest; [| done].
    simplify_eq. unfold enqueue_call in Hk. destruct flag.
    + apply enqueue_true_iff in Hk
        as (Hne & req & blob & blob' & _ & _ & _ & _ & ->).
      assert (Hle1 : enqueued_frames
                       (set_blob st (call_input k) blob' req
                                 (enqueued_frames st + 1))
                     <= max_batch_size_
                          (set_blob st (call_input k) blob' req
                                    (enqueued_frames st + 1)))
        by (simpl; lia).
      destruct (IH _ _ _ Hle1 Hrest)
        as (j & Hj & -> & Hnum & Hle' & Hmax & Hfull).
      exists (S j). simpl in *. repeat split; try (lia || done).
    + apply enqueue_false_inv in Hk as [-> Hfull].
      rewrite (enqueue_seq_full calls st Hfull) in Hrest. simplify_eq.
      exists 0%nat. simpl. repeat split; try (lia || done).
Qed.

(** X13: of a run of calls whose frames the backend can take, made on an
    engine whose count is within its capacity, the first ones are
    accepted until the batch is full and all the others are refused: no
    call faults, and the count grows by the room there was or by the
    number of calls, whichever is less. *)
Theorem enqueue_seq_fills_the_batch (calls : list Call) st :
  enqueued_frames st <= max_batch_size_ st →
  is_int (max_batch_size_ st) →
  Forall (loadable convert cv_resize st) calls →
  let room := Z.to_nat (max_batch_size_ st - enqueued_frames st) in
  let j := (length calls `min` room)%nat in
  ∃ st',
    enqueue_seq convert cv_resize calls st
      = Some (replicate j true ++ replicate (length calls - j) false, st')
    ∧ enqueued_frames st' = enqueued_frames st + Z.of_nat j.
Proof.
  revert st. induction calls as [| k calls IH]; intros st Hle Hint Hall.
  - exists st. simpl. split; [done | lia].
  - apply Forall_cons in Hall as [Hk Hall].
    destruct (decide (enqueued_frames st = max_batch_size_ st)) as [Hfull | Hne].
    + exists st. rewrite (enqueue_seq_full _ st Hfull).
      replace (Z.to_nat (max_batch_size_ st - enqueued_frames st))
        with 0%nat by lia.
      rewrite Nat.min_0_r. simpl. split; [done | lia].
    + pose proof Hk as (req & blob & Hreq & Hblob & [blob' Hload]).
      pose (st1 := set_blob st (call_input k) blob' req
                     (enqueued_frames st + 1)).
      assert (Hrun : enqueue_call convert cv_resize k st = Some (true, st1)).
      { apply enqueue_true_iff. split; [done |]. exists req, blob, blob'.
        unfold is_int in Hint. do 3 (split; [done |]). split; [lia | done]. }
      destruct (IH st1) as (st' & Hrest & Hnum).
      * simpl. lia.
      * done.
      * eapply Forall_impl; [exact Hall |]. intros k' Hk'.
        eapply loadable_set_blob; [done | done | | done].
        by eapply matU8ToBlob_keeps_shape.
      * exists st'. simpl. rewrite Hrun. simpl in Hrest, Hnum.
        replace (Z.to_nat (max_batch_size_ st - enqueued_frames st))
          with (S (Z.to_nat (max_batch_size_ st - (enqueued_frames st + 1))))
          by lia.
        rewrite Hrest.
        split; [done | lia].
Qed.

(** X14: [enqueue] writes at the batch index it is given, whatever the
    count: two accepted calls with the same input name and the same batch
    index leave in the blob the second frame alone, as if the first call
    had not been made, while the count is two more. *)
Theorem enqueue_same_batch_index_overwrites frame1 frame2 loc1 loc2 s1 s2
    b name st req (blob : Blob T) n C H W :
  request_of st = Some req → req !! name = Some blob →
  dims blob = [n; C; H; W] →
  fits convert frame1 s1 b W H C (length (buffer blob)) →
  fits convert frame2 s2 b W H C (length (buffer blob)) →
  enqueued_frames st + 2 <= max_batch_size_ st →
  is_int (max_batch_size_ st) →
  ∃ st1 st2 blob2,
    enqueue convert cv_resize frame1 loc1 s1 b name st = Some (true, st1)
    ∧ enqueue convert cv_resize frame2 loc2 s2 b name st1 = Some (true, st2)
    ∧ (matU8ToBlob convert cv_resize frame2 blob s2 b).2 = Some blob2
    ∧ request_of st2 = Some (<[name := blob2]> req)
    ∧ getEnqueuedNum st2 = getEnqueuedNum st + 2.
Proof.
  intros Hreq Hblob Hdims Hfit1 Hfit2 Hroom Hint. unfold is_int in Hint.
  destruct (load_over_load convert cv_resize frame1 frame2 blob s1 s2 b
              n C H W Hdims Hfit1 Hfit2) as (blob1 & blob2 & H1 & H12 & H2).
  pose (st1 := set_blob st name blob1 req (enqueued_frames st + 1)).
  pose (st2 := set_blob st1 name blob2 (<[name := blob1]> req)
                 (enqueued_frames st + 1 + 1)).
  exists st1, st2, blob2. split; [| split; [| split; [done |]]].
  - apply enqueue_true_iff. split; [lia |]. exists req, blob, blob1.
    do 3 (split; [done |]). split; [lia | done].
  - apply enqueue_true_iff. split; [simpl; lia |].
    exists (<[name := blob1]> req), blob1, blob2.
    split; [done |]. split; [by apply lookup_insert_eq |].
    split; [done |]. split; [simpl; lia | done].
  - subst st1 st2. unfold getEnqueuedNum, request_of. simpl.
    split; [| lia]. by rewrite insert_insert_eq.
Qed.

(** X15: two calls for different batch indices of one blob can be made in
    either order: both runs accept both calls and end in the same
    engine. *)
Theorem enqueue_order_is_irrelevant k1 k2 st req (blob : Blob T) n C H W :
  request_of st = Some req →
  call_input k1 = call_input k2 →
  req !! call_input k1 = Some blob →
  dims blob = [n; C; H; W] →
  call_batch_index k1 ≠ call_batch_index k2 →
  fits convert (call_frame k1) (call_scale k1) (call_batch_index k1)
       W H C (length (buffer blob)) →
  fits convert (call_frame k2) (call_scale k2) (call_batch_index k2)
       W H C (length (buffer blob)) →
  enqueued_frames st + 2 <= max_batch_size_ st →
  is_int (max_batch_size_ st) →
  ∃ st12,
    enqueue_seq convert cv_resize [k1; k2] st = Some ([true; true], st12)
    ∧ enqueue_seq convert cv_resize [k2; k1] st = Some ([true; true], st12).
Proof.
  intros Hreq Hname Hblob Hdims Hne Hfit1 Hfit2 Hroom Hint.
  unfold is_int in Hint.
  destruct (load_two_slots convert cv_resize _ _ blob _ _ _ _ n C H W
              Hdims Hne Hfit1 Hfit2)
    as (blob1 & blob2 & blob12 & H1 & H12 & H2 & H21 & _).
  assert (Hstep : ∀ k st0 req0 blob0 blob0',
            request_of st0 = Some req0 →
            req0 !! call_input k = Some blob0 →
            (matU8ToBlob convert cv_resize (call_frame k) blob0 (call_scale k) (call_batch_index k)).2
              = Some blob0' →
            enqueued_frames st0 + 1 <= max_batch_size_ st0 →
            max_batch_size_ st0 <= INT_MAX →
            enqueue_call convert cv_resize k st0
            = Some (true, set_blob st0 (call_input k) blob0' req0
                            (enqueued_frames st0 + 1))).
  { intros k st0 req0 blob0 blob0' Hr Hb Hl Hroom0 Hmax0.
    apply enqueue_true_iff. split; [lia |]. exists req0, blob0, blob0'.
    do 3 (split; [done |]). split; [lia | done]. }
  exists (set_blob st (call_input k1) blob12 req (enqueued_frames st + 1 + 1)).
  split.
  - simpl. rewrite (Hstep k1 st req blob blob1) by (done || lia).
    rewrite (Hstep k2 _ (<[call_input k1 := blob1]> req) blob1 blob12);
      [| done | rewrite <- Hname; by apply lookup_insert_eq | done
       | simpl; lia | simpl; lia].
    unfold set_blob. simpl. by rewrite <- Hname, insert_insert_eq.
  - simpl. rewrite (Hstep k2 st req blob blob2);
      [| done | by rewrite <- Hname | done | lia | lia].
    rewrite (Hstep k1 _ (<[call_input k2 := blob2]> req) blob2 blob12);
      [| done | rewrite Hname; by apply lookup_insert_eq | done
       | simpl; lia | simpl; lia].
    unfold set_blob. simpl. by rewrite <- Hname, insert_insert_eq.
Qed.

(** X16: [setMaxBatchSize] changes the capacity and nothing else, and the
    capacity it sets is the one the next call is tested against, whatever
    the capacity was: set to the count, the engine refuses the call; set
    above the count, the engine accepts a call the backend can take, full
    or not as it was before. *)
Theorem setMaxBatchSize_is_the_next_test n st k :
  (getEnqueuedNum (setMaxBatchSize n st) = getEnqueuedNum st
   ∧ request_of (setMaxBatchSize n st) = request_of st
   ∧ results_fetched_ (setMaxBatchSize n st) = results_fetched_ st)
  ∧ (enqueued_frames st = n →
     enqueue_call convert cv_resize k (setMaxBatchSize n st) = Some (false, setMaxBatchSize n st))
  ∧ (enqueued_frames st < n → is_int n →
     loadable convert cv_resize st k →
     ∃ st', enqueue_call convert cv_resize k (setMaxBatchSize n st) = Some (true, st')
            ∧ enqueued_frames st' = enqueued_frames st + 1
            ∧ max_batch_size_ st' = n).
Proof.
  split; [done |]. split.
  - intros Hfull. unfold enqueue_call. by apply enqueue_at_capacity.
  - intros Hbelow Hint (req & blob & Hreq & Hblob & [blob' Hload]).
    unfold is_int in Hint.
    exists (set_blob (setMaxBatchSize n st) (call_input k) blob' req
                     (enqueued_frames st + 1)).
    split; [| done]. apply enqueue_true_iff. split; [simpl; lia |].
    exists req, blob, blob'. split; [done |]. split; [done |].
    split; [done |]. split; [simpl; lia | done].
Qed.

End EngineMore.

(** * Instances of the further properties *)

Lemma fits_u8_one image b W H C len :
  Mat_ok image → is_8bit_3channel image → bytes_ok image →
  rows image = H → cols image = W → 0 <= C <= 3 →
  0 <= b → b * W * H * C <= INT_MAX →
  (b + 1) * W * H * C <= Z.of_nat len →
  fits convert_u8 image float_one b W H C len.
Proof.
  intros Hok H3 Hbytes Hrows Hcols HC Hb Hint Hfit.
  do 8 (split; [done |]). intros c h w px _ _ _ Hpx.
  rewrite convert_u8_one; [by eexists | by eapply source_pixel_byte].
Qed.

Lemma bgr_frames_fit b :
  0 <= b <= 1 →
  fits convert_u8 bgr_2x2 float_one b 2 2 1 8
  ∧ fits convert_u8 bgr_2x2_alt float_one b 2 2 1 8.
Proof.
  intros Hb.
  assert (Hbytes : ∀ l, forallb (λ x, (0 <=? x) && (x <=? 255)) l = true →
                        Forall (λ x, 0 <= x <= 255) l).
  { intros l Hl. rewrite forallb_forall in Hl. apply Forall_forall.
    intros x Hx. apply list_elem_of_In, Hl in Hx. lia. }
  split; apply fits_u8_one.
  - by vm_compute.
  - by vm_compute.
  - by apply Hbytes.
  - reflexivity.
  - reflexivity.
  - lia.
  - lia.
  - unfold INT_MAX. lia.
  - simpl. lia.
  - by vm_compute.
  - by vm_compute.
  - by apply Hbytes.
  - reflexivity.
  - reflexivity.
  - lia.
  - lia.
  - unfold INT_MAX. lia.
  - simpl. lia.
Qed.

Lemma matU8ToBlob_scale_one_is_exact_witness :
  ∃ blob',
    matU8ToBlob convert_u8 resize_nearest bgr_2x2 blob_u8_batch2 float_one 1
      = ([], Some blob')
    ∧ ∀ c h w, 0 <= c < 1 → 0 <= h < 2 → 0 <= w < 2 →
        is_Some (source_pixel bgr_2x2 h w c)
        ∧ buffer blob' !! Z.to_nat (1 * 2 * 2 * 1 + c * 2 * 2 + h * 2 + w)
          = source_pixel bgr_2x2 h w c.
Proof.
  apply (matU8ToBlob_scale_one_is_exact resize_nearest bgr_2x2 1 2 1 2 2).
  - by vm_compute.
  - by vm_compute.
  - unfold bytes_ok. simpl. repeat constructor; lia.
  - reflexivity.
  - reflexivity.
  - lia.
  - lia.
  - by vm_compute.
  - reflexivity.
  - by vm_compute.
Defined.

Lemma matU8ToBlob_last_load_wins_witness :
  ∃ blob1 blob2,
    (matU8ToBlob convert_u8 resize_nearest bgr_2x2 blob_u8_batch2
                 float_one 1).2 = Some blob1
    ∧ (matU8ToBlob convert_u8 resize_nearest bgr_2x2_alt blob1
                   float_one 1).2 = Some blob2
    ∧ (matU8ToBlob convert_u8 resize_nearest bgr_2x2_alt blob_u8_batch2
                   float_one 1).2 = Some blob2.
Proof.
  apply (matU8ToBlob_last_load_wins convert_u8 resize_nearest bgr_2x2
           bgr_2x2_alt blob_u8_batch2 float_one float_one 1 2 1 2 2).
  - reflexivity.
  - apply (bgr_frames_fit 1). lia.
  - apply (bgr_frames_fit 1). lia.
Defined.

Lemma matU8ToBlob_slots_independent_witness :
  ∃ blob1 blob2 blob12,
    (matU8ToBlob convert_u8 resize_nearest bgr_2x2 blob_u8_batch2
                 float_one 0).2 = Some blob1
    ∧ (matU8ToBlob convert_u8 resize_nearest bgr_2x2_alt blob1
                   float_one 1).2 = Some blob12
    ∧ (matU8ToBlob convert_u8 resize_nearest bgr_2x2_alt blob_u8_batch2
                   float_one 1).2 = Some blob2
    ∧ (matU8ToBlob convert_u8 resize_nearest bgr_2x2 blob2
                   float_one 0).2 = Some blob12.
Proof.
  destruct (matU8ToBlob_slots_independent convert_u8 resize_nearest bgr_2x2
              bgr_2x2_alt blob_u8_batch2 float_one float_one 0 1 2 1 2 2)
    as (blob1 & blob2 & blob12 & H1 & H12 & H2 & H21 & _).
  - reflexivity.
  - lia.
  - apply (bgr_frames_fit 0). lia.
  - apply (bgr_frames_fit 1). lia.
  - exists blob1, blob2, blob12.
    split; [exact H1 |]. split; [exact H12 |]. split; [exact H2 | exact H21].
Defined.

Lemma matU8ToBlob_loads_the_resized_image_witness :
  ∃ blob',
    matU8ToBlob convert_u8 resize_nearest bgr_4x4 blob_u8_2x2 float_one 0
      = ([(bgr_4x4, to_int 2, to_int 2)], Some blob')
    ∧ dims blob' = dims blob_u8_2x2.
Proof.
  destruct (matU8ToBlob_loads_the_resized_image convert_u8 resize_nearest
              bgr_4x4 bgr_100_2x2 blob_u8_2x2 float_one 0 1 1 2 2)
    as [_ Hload].
  - reflexivity.
  - by vm_compute.
  - by vm_compute.
  - simpl. lia.
  - destruct Hload as (blob' & Hrun & Hdims & _).
    + by vm_compute.
    + apply fits_u8_one; try (by vm_compute); try lia.
      unfold bytes_ok. simpl. repeat constructor; lia.
    + exists blob'. split; [exact Hrun | exact Hdims].
Defined.

Lemma matU8ToBlob_shape_invariant_witness :
  dims blob_u8_loaded = dims blob_u8_2x2
  ∧ length (buffer blob_u8_loaded) = length (buffer blob_u8_2x2).
Proof.
  destruct (matU8ToBlob_shape_invariant convert_u8 resize_nearest bgr_2x2
              blob_u8_2x2 blob_u8_loaded float_one 0 bgr_2x2_loads)
    as (Hd & Hl & _).
  by split.
Defined.

Lemma matU8ToBlob_defined_within_buffer_witness :
  0 <= 0 ∧ (0 + 1) * 2 * 2 * 1 <= Z.of_nat (length (buffer blob_u8_2x2)).
Proof.
  apply (matU8ToBlob_defined_within_buffer convert_u8 resize_nearest bgr_2x2
           blob_u8_2x2 float_one 0 1 1 2 2).
  - reflexivity.
  - lia.
  - lia.
  - lia.
  - by vm_compute.
  - lia.
  - simpl. lia.
  - exists blob_u8_loaded. exact bgr_2x2_loads.
Defined.

Lemma matU8ToBlob_empty_blob_witness :
  matU8ToBlob convert_u8 resize_nearest gray_2x2 blob_u8_no_channel float_two 7
  = ([], Some blob_u8_no_channel).
Proof.
  apply (matU8ToBlob_empty_blob convert_u8 resize_nearest gray_2x2
           blob_u8_no_channel float_two 7 1 0 2 2).
  - reflexivity.
  - by vm_compute.
  - by vm_compute.
  - reflexivity.
  - reflexivity.
  - left. lia.
Defined.

Lemma enqueue_touches_one_blob_witness :
  ∃ req req',
    request_of inference_u8 = Some req
    ∧ request_of (base core_u8_enqueued) = Some req'
    ∧ (∀ name', name' ≠ input_data → req' !! name' = req !! name')
    ∧ dom req' = dom req
    ∧ blob_shape <$> req' = blob_shape <$> req.
Proof.
  apply (enqueue_touches_one_blob convert_u8 resize_nearest bgr_2x2 frame_loc
           float_one 0 input_data inference_u8 (base core_u8_enqueued)).
  exact call_bgr_accepted.
Defined.

Lemma enqueue_faults_iff_not_loadable_witness :
  enqueue_call convert_u8 resize_nearest call_bgr BaseInference_new = None
  ↔ ¬ loadable convert_u8 resize_nearest BaseInference_new call_bgr.
Proof.
  apply (enqueue_faults_iff_not_loadable convert_u8 resize_nearest call_bgr
           BaseInference_new).
  - simpl. lia.
  - by vm_compute.
Defined.

Lemma call_bgr_twice :
  enqueue_seq convert_u8 resize_nearest [call_bgr; call_bgr] inference_u8
  = Some ([true; false], base core_u8_enqueued).
Proof.
  simpl. rewrite call_bgr_accepted. unfold enqueue_call.
  rewrite enqueue_at_capacity; reflexivity.
Defined.

Lemma enqueue_seq_accepts_then_refuses_witness :
  ∃ j : nat,
    (j <= 2)%nat
    ∧ [true; false] = replicate j true ++ replicate (2 - j) false
    ∧ enqueued_frames (base core_u8_enqueued)
      = enqueued_frames inference_u8 + Z.of_nat j.
Proof.
  destruct (enqueue_seq_accepts_then_refuses convert_u8 resize_nearest
              [call_bgr; call_bgr] inference_u8 [true; false]
              (base core_u8_enqueued))
    as (j & Hj & Hflags & Hnum & _).
  - simpl. lia.
  - exact call_bgr_twice.
  - by exists j.
Defined.

Lemma call_bgr_loadable :
  loadable convert_u8 resize_nearest inference_u8 call_bgr.
Proof.
  exists {[ input_data := blob_u8_2x2 ]}, blob_u8_2x2.
  split; [reflexivity |]. split; [by apply lookup_singleton_eq |].
  exists blob_u8_loaded. exact bgr_2x2_loads.
Defined.

Lemma enqueue_seq_fills_the_batch_witness :
  ∃ st',
    enqueue_seq convert_u8 resize_nearest [call_bgr; call_bgr] inference_u8
      = Some ([true; false], st')
    ∧ enqueued_frames st' = 1.
Proof.
  destruct (enqueue_seq_fills_the_batch convert_u8 resize_nearest
              [call_bgr; call_bgr] inference_u8)
    as (st' & Hrun & Hnum).
  - simpl. lia.
  - by vm_compute.
  - repeat constructor; exact call_bgr_loadable.
  - exists st'. split; [exact Hrun | exact Hnum].
Defined.

Lemma inference_batch2_request :
  request_of inference_batch2 = Some {[ input_data := blob_u8_batch2 ]}
  ∧ ({[ input_data := blob_u8_batch2 ]} : gmap string (Blob Z)) !! input_data
    = Some blob_u8_batch2.
Proof. split; [reflexivity | by apply lookup_singleton_eq]. Defined.

Lemma enqueue_same_batch_index_overwrites_witness :
  ∃ st1 st2 blob2,
    enqueue convert_u8 resize_nearest bgr_2x2 frame_loc float_one 1
            input_data inference_batch2 = Some (true, st1)
    ∧ enqueue convert_u8 resize_nearest bgr_2x2_alt frame_loc float_one 1
              input_data st1 = Some (true, st2)
    ∧ (matU8ToBlob convert_u8 resize_nearest bgr_2x2_alt blob_u8_batch2
                   float_one 1).2 = Some blob2
    ∧ request_of st2 = Some (<[input_data := blob2]>
                               {[ input_data := blob_u8_batch2 ]})
    ∧ getEnqueuedNum st2 = getEnqueuedNum inference_batch2 + 2.
Proof.
  apply (enqueue_same_batch_index_overwrites convert_u8 resize_nearest
           bgr_2x2 bgr_2x2_alt frame_loc frame_loc float_one float_one 1
           input_data inference_batch2 {[ input_data := blob_u8_batch2 ]}
           blob_u8_batch2 2 1 2 2).
  - exact (proj1 inference_batch2_request).
  - exact (proj2 inference_batch2_request).
  - reflexivity.
  - apply (bgr_frames_fit 1). lia.
  - apply (bgr_frames_fit 1). lia.
  - simpl. lia.
  - by vm_compute.
Defined.

Lemma enqueue_order_is_irrelevant_witness :
  ∃ st12,
    enqueue_seq convert_u8 resize_nearest [call_slot0; call_slot1]
                inference_batch2 = Some ([true; true], st12)
    ∧ enqueue_seq convert_u8 resize_nearest [call_slot1; call_slot0]
                  inference_batch2 = Some ([true; true], st12).
Proof.
  apply (enqueue_order_is_irrelevant convert_u8 resize_nearest call_slot0
           call_slot1 inference_batch2 {[ input_data := blob_u8_batch2 ]}
           blob_u8_batch2 2 1 2 2).
  - exact (proj1 inference_batch2_request).
  - reflexivity.
  - exact (proj2 inference_batch2_request).
  - reflexivity.
  - simpl. lia.
  - apply (bgr_frames_fit 0). lia.
  - apply (bgr_frames_fit 1). lia.
  - simpl. lia.
  - by vm_compute.
Defined.

Lemma setMaxBatchSize_is_the_next_test_witness :
  ∃ st',
    enqueue_call convert_u8 resize_nearest call_bgr
                 (setMaxBatchSize 2 inference_full) = Some (true, st')
    ∧ enqueued_frames st' = enqueued_frames inference_full + 1
    ∧ max_batch_size_ st' = 2.
Proof.
  apply (setMaxBatchSize_is_the_next_test convert_u8 resize_nearest 2
           inference_full call_bgr).
  - simpl. lia.
  - by vm_compute.
  - exists {[ input_data := blob_u8_2x2 ]}, blob_u8_2x2.
    split; [reflexivity |]. split; [by apply lookup_singleton_eq |].
    exists blob_u8_loaded. exact bgr_2x2_loads.
Defined.

(** * The resize decision *)

(** The cells of the slot of a frame that fits, and the cells around
    it. *)
Lemma fill_blob_cells {T : Type} (convert : float → option T)
    image s b W H C (buf : list T) :
  fits convert image s b W H C (length buf) →
  ∃ buf',
    fill_blob convert image s (batchOffset b W H C) W H C buf = Some buf'
    ∧ (∀ c h w, 0 <= c < C → 0 <= h < H → 0 <= w < W →
         ∃ px, source_pixel image h w c = Some px
           ∧ buf' !! Z.to_nat (b * W * H * C + c * W * H + h * W + w)
             = convert (uchar_times px s))
    ∧ (∀ j, 0 <= j → ¬ (b * W * H * C <= j < (b + 1) * W * H * C) →
         buf' !! Z.to_nat j = buf !! Z.to_nat j).
Proof.
  intros Hfits.
  destruct (fill_blob_pointwise convert image s b W H C buf Hfits)
    as (buf' & Hrun & Hlen & Hpt).
  exists buf'. split; [done |].
  destruct Hfits as (Hok & H3 & Hrows & Hcols & HC & Hb & _ & _ & Hconv).
  assert (HWH : 0 <= W ∧ 0 <= H) by (destruct Hok as (? & ? & _); lia).
  split.
  - intros c h w Hc' Hh Hw.
    destruct (pixel_value_source image s c h w Hok H3) as (px & Hpx & _);
      [lia | lia | lia |].
    exists px. split; [done |].
    pose proof (cell_in_slot W H C c h w Hc' Hh Hw) as Hcell.
    rewrite Hpt by nia. rewrite bool_decide_eq_true_2 by nia.
    replace (b * W * H * C + c * W * H + h * W + w - b * W * H * C)
      with (c * W * H + h * W + w) by lia.
    rewrite slot_value_cell by lia. by rewrite Hpx.
  - intros j Hj Hout. rewrite Hpt by done. by rewrite bool_decide_eq_false_2.
Qed.

(** C4: the loader calls the resize primitive, once and with the blob's
    declared width and height (as the [int] values [cv::Size] takes: the
    declared ones when they are ints), exactly when the size of the
    source image differs from them. When the sizes agree no call is made,
    the outcome is the same whatever the resize primitive is, and a frame
    that fits leaves in every cell of its slot the scaled component of
    its own pixel, the other cells unchanged. When the sizes differ, the
    cells receive the pixels of the image the resize returns, and a
    resize that throws is a fault. *)
Theorem matU8ToBlob_resizes_iff_size_differs
    (T : Type) (convert : float → option T) cv_resize image (blob : Blob T)
    (scale_factor : float) (b n C H W : Z) :
  dims blob = [n; C; H; W] →
  0 <= rows image <= INT_MAX → 0 <= cols image <= INT_MAX →
  let run := matU8ToBlob convert cv_resize image blob scale_factor b in
  let same_size := cols image = W ∧ rows image = H in
  let cells_of (img : Mat) (blob' : Blob T) :=
    (∀ c h w, 0 <= c < C → 0 <= h < H → 0 <= w < W →
       ∃ px, source_pixel img h w c = Some px
         ∧ buffer blob' !! Z.to_nat (b * W * H * C + c * W * H + h * W + w)
           = convert (uchar_times px scale_factor))
    ∧ (∀ j, 0 <= j → ¬ (b * W * H * C <= j < (b + 1) * W * H * C) →
         buffer blob' !! Z.to_nat j = buffer blob !! Z.to_nat j) in
  (run.1 = [(image, to_int W, to_int H)] ↔ ¬ same_size)
  ∧ (run.1 = [] ↔ same_size)
  ∧ (0 <= W <= INT_MAX → 0 <= H <= INT_MAX →
     (run.1 = [(image, W, H)] ↔ ¬ same_size))
  ∧ (same_size →
     ∀ cv_resize',
       matU8ToBlob convert cv_resize' image blob scale_factor b = run)
  ∧ (same_size →
     fits convert image scale_factor b W H C (length (buffer blob)) →
     ∃ blob', run = ([], Some blob') ∧ dims blob' = dims blob
              ∧ cells_of image blob')
  ∧ (¬ same_size →
     ∀ image',
       cv_resize image (to_int W) (to_int H) = Some image' →
       fits convert image' scale_factor b W H C (length (buffer blob)) →
       ∃ blob', run = ([(image, to_int W, to_int H)], Some blob')
                ∧ dims blob' = dims blob ∧ cells_of image' blob')
  ∧ (¬ same_size →
     cv_resize image (to_int W) (to_int H) = None → run.2 = None).
Proof.
  intros Hdims Hr Hc run same_size cells_of. subst run same_size cells_of.
  pose proof (size_differs_false W H image Hr Hc) as Hsame.
  unfold matU8ToBlob, resized_image. rewrite Hdims. simpl.
  destruct (size_differs W H image) eqn:Hd; simpl.
  - assert (Hne : ¬ (cols image = W ∧ rows image = H)).
    { intros Heq. apply Hsame in Heq. done. }
    split; [done |]. split; [split; [done | intros; by exfalso] |].
    split.
    { intros HW HH.
      rewrite !to_int_small by (unfold is_int, INT_MIN, INT_MAX in *; lia).
      done. }
    split; [intros; by exfalso |]. split; [intros; by exfalso |].
    split.
    + intros _ image' Hres Hfits. rewrite Hres. simpl.
      destruct (fill_blob_cells convert image' scale_factor b W H C
                  (buffer blob) Hfits) as (buf' & Hrun & Hcells).
      rewrite Hrun. simpl. by exists (mkBlob [n; C; H; W] buf').
    + intros _ Hthrow. by rewrite Hthrow.
  - assert (Heq : cols image = W ∧ rows image = H) by by apply Hsame.
    split; [split; [done | intros; by exfalso] |]. split; [done |].
    split; [intros _ _; split; [done | intros; by exfalso] |].
    split; [done |]. split; [| split; intros; by exfalso].
    intros _ Hfits.
    destruct (fill_blob_cells convert image scale_factor b W H C
                (buffer blob) Hfits) as (buf' & Hrun & Hcells).
    rewrite Hrun. simpl. by exists (mkBlob [n; C; H; W] buf').
Qed.

Lemma matU8ToBlob_resizes_iff_size_differs_witness :
  (matU8ToBlob convert_u8 resize_nearest bgr_4x4 blob_u8_2x2 float_one 0).1
    = [(bgr_4x4, to_int 2, to_int 2)]
    ↔ ¬ (cols bgr_4x4 = 2 ∧ rows bgr_4x4 = 2).
Proof.
  destruct (matU8ToBlob_resizes_iff_size_differs Z convert_u8 resize_nearest
              bgr_4x4 blob_u8_2x2 float_one 0 1 1 2 2) as (Hiff & _).
  - reflexivity.
  - by vm_compute.
  - by vm_compute.
  - exact Hiff.
Defined.
